(** * alembic_utils: statement helpers and the materialized-view entity

    A shallow embedding of [alembic_utils/statement.py] and
    [alembic_utils/pg_materialized_view.py].

    Python [str] values are lists of characters; a character is a code
    point below 256, carried by [ascii].  String literals are written as
    Rocq strings and coerced. *)

From Stdlib Require Import Ascii String.
From Stdlib Require Import List Bool Arith Lia.
From Stdlib Require DecimalString.
Import ListNotations.
Open Scope string_scope.
Open Scope list_scope.
Open Scope nat_scope.

(** ** Python strings *)

Definition str := list ascii.

Coercion list_ascii_of_string : string >-> list.

Definition DQUOTE : ascii := ascii_of_nat 34.
Definition BACKSLASH : ascii := ascii_of_nat 92.
Definition COLON : ascii := ascii_of_nat 58.
Definition SEMICOLON : ascii := ascii_of_nat 59.
Definition DOT : ascii := ascii_of_nat 46.
Definition HYPHEN : ascii := ascii_of_nat 45.
Definition LPAREN : ascii := ascii_of_nat 40.
Definition SPACE : ascii := ascii_of_nat 32.
Definition EQUALS : ascii := ascii_of_nat 61.

(** [str.isspace] on one character: the code points below 256 that Python
    treats as whitespace (also what [\s] matches in [re] on [str]). *)
Definition isspace (c : ascii) : bool :=
  let n := nat_of_ascii c in
  ((9 <=? n) && (n <=? 13)) || ((28 <=? n) && (n <=? 32))
  || (n =? 133) || (n =? 160).

(** [str.lower] on one character (Latin-1 range). *)
Definition lower_char (c : ascii) : ascii :=
  let n := nat_of_ascii c in
  if ((65 <=? n) && (n <=? 90))
     || ((192 <=? n) && (n <=? 222) && negb (n =? 215))
  then ascii_of_nat (n + 32) else c.

Definition lower (s : str) : str := map lower_char s.

Fixpoint dropwhile (p : ascii -> bool) (s : str) : str :=
  match s with
  | [] => []
  | c :: s' => if p c then dropwhile p s' else s
  end.

(** [s.lstrip(chars)] and [s.rstrip(chars)], the character set given as a
    predicate. *)
Definition lstrip_by (p : ascii -> bool) (s : str) : str := dropwhile p s.
Definition rstrip_by (p : ascii -> bool) (s : str) : str :=
  rev (dropwhile p (rev s)).

(** [s.strip()], [s.rstrip()] with no argument: whitespace. *)
Definition rstrip (s : str) : str := rstrip_by isspace s.
Definition lstrip (s : str) : str := lstrip_by isspace s.
Definition strip (s : str) : str := rstrip (lstrip s).

Definition is_char (c : ascii) : ascii -> bool := Ascii.eqb c.

(** [old] is a prefix of [s] ([s.startswith(old)]). *)
Fixpoint startswith (s old : str) {struct old} : bool :=
  match old, s with
  | [], _ => true
  | _ :: _, [] => false
  | a :: old', c :: s' => Ascii.eqb a c && startswith s' old'
  end.

(** [sep.join(parts)]. *)
Fixpoint join (sep : str) (parts : list str) : str :=
  match parts with
  | [] => []
  | [p] => p
  | p :: rest => p ++ sep ++ join sep rest
  end.

(** [s.split(sep)] for a non-empty separator: cut at the leftmost
    occurrence, then go on after it.  [skip] counts the characters of a
    matched separator still to be passed over, [cur] holds the current
    piece in reverse. *)
Fixpoint split_from (sep : str) (skip : nat) (cur : str) (s : str)
  : list str :=
  match s with
  | [] => [rev cur]
  | c :: s' =>
      match skip with
      | S k => split_from sep k cur s'
      | O =>
          if startswith s sep
          then rev cur :: split_from sep (length sep - 1) [] s'
          else split_from sep 0 (c :: cur) s'
      end
  end.

Definition split (s sep : str) : list str := split_from sep 0 [] s.

(** [s.replace(old, new)] for a non-empty [old]: leftmost occurrences,
    not overlapping. *)
Fixpoint replace_from (old new : str) (skip : nat) (s : str) : str :=
  match s with
  | [] => []
  | c :: s' =>
      match skip with
      | S k => replace_from old new k s'
      | O =>
          if startswith s old
          then new ++ replace_from old new (length old - 1) s'
          else c :: replace_from old new 0 s'
      end
  end.

Definition str_replace (s old new : str) : str := replace_from old new 0 s.

(** [s.split()] with no argument: the maximal runs of non-whitespace. *)
Fixpoint split_ws_from (cur : str) (s : str) : list str :=
  match s with
  | [] => match cur with [] => [] | _ => [rev cur] end
  | c :: s' =>
      if isspace c
      then match cur with
           | [] => split_ws_from [] s'
           | _ => rev cur :: split_ws_from [] s'
           end
      else split_ws_from (c :: cur) s'
  end.

Definition split_ws (s : str) : list str := split_ws_from [] s.

(** [s.partition(sep)] for a one-character separator: the text before the
    first [sep], and the text after it when there is one. *)
Fixpoint partition_char (sep : ascii) (s : str) : str * option str :=
  match s with
  | [] => ([], None)
  | c :: s' =>
      if Ascii.eqb c sep then ([], Some s')
      else let '(b, a) := partition_char sep s' in (c :: b, a)
  end.

Definition contains_char (c : ascii) (s : str) : bool := existsb (is_char c) s.

(** ** statement.py: normalization helpers *)

(** [normalize_whitespace], with the default single-space separator. *)
Definition normalize_whitespace (text : str) : str :=
  strip (join [SPACE] (split_ws text)).

(** [strip_terminating_semicolon]: [strip], then [rstrip] of semicolons,
    then [strip]. *)
Definition strip_terminating_semicolon (sql : str) : str :=
  strip (rstrip_by (is_char SEMICOLON) (strip sql)).

(** [strip_double_quotes] *)
Definition strip_double_quotes (sql : str) : str :=
  let sql := rstrip_by (is_char DQUOTE) (strip sql) in
  strip (lstrip_by (is_char DQUOTE) (strip sql)).

(** [coerce_to_quoted] *)
Definition coerce_to_quoted (text : str) : str :=
  if contains_char DOT text then
    match partition_char DOT text with
    | (schema, Some name) =>
        let schema := [DQUOTE] ++ strip_double_quotes schema ++ [DQUOTE] in
        let name := [DQUOTE] ++ strip_double_quotes name ++ [DQUOTE] in
        schema ++ [DOT] ++ name
    | (schema, None) =>
        (* not reached: [text] holds a dot *)
        [DQUOTE] ++ strip_double_quotes schema ++ [DQUOTE]
    end
  else
    let text := strip_double_quotes text in
    [DQUOTE] ++ text ++ [DQUOTE].

(** [coerce_to_unquoted]: the pieces of [text] between double quotes,
    joined with the empty string. *)
Definition coerce_to_unquoted (text : str) : str :=
  join [] (split text [DQUOTE]).

(** ** Exceptions *)

Inductive exn : Type :=
| ValueError (msg : str)
| PgQueryExc (msg : str)
| SQLParseFailure (msg : str).

(** A call either raises ([inl]) or returns ([inr]). *)
Definition result (A : Type) : Type := (exn + A)%type.

Definition ret {A : Type} (a : A) : result A := inr a.
Definition raise {A : Type} (e : exn) : result A := inl e.
Definition bind {A B : Type} (m : result A) (k : A -> result B) : result B :=
  match m with
  | inl e => inl e
  | inr a => k a
  end.

Notation "x <- m ;; k" := (bind m (fun x => k))
  (at level 61, m at next level, right associativity).

Fixpoint str_eqb (a b : str) : bool :=
  match a, b with
  | [], [] => true
  | x :: a', y :: b' => Ascii.eqb x y && str_eqb a' b'
  | _, _ => false
  end.

(** ** The [parse] package, as far as the templates of this repository use it

    [parse(template, text, case_sensitive=False)] compiles the template to
    a regular expression anchored at both ends and matches it ignoring
    case, a dot matching every character: literal text matches itself, an
    empty field or a field with only a name is a non-greedy run of one or
    more characters, the field [:s] is a greedy run of one or more
    whitespace characters. *)

Inductive field : Type :=
| Lit (text : str)
| Any (name : option str)
| Ws.

Definition LBRACE : ascii := ascii_of_nat 123.
Definition RBRACE : ascii := ascii_of_nat 125.

Definition emit_lit (cur : str) : list field :=
  match cur with
  | [] => []
  | _ => [Lit (rev cur)]
  end.

Definition field_of (spec : str) : field :=
  match spec with
  | [] => Any None
  | _ => if str_eqb spec ":s" then Ws else Any (Some spec)
  end.

(** The fields of a template, left to right; [cur] is the literal or the
    field specification being read, in reverse. *)
Fixpoint compile_from (cur : str) (in_field : bool) (t : str) : list field :=
  match t with
  | [] => if in_field then [] else emit_lit cur
  | c :: t' =>
      if in_field then
        if Ascii.eqb c RBRACE
        then field_of (rev cur) :: compile_from [] false t'
        else compile_from (c :: cur) true t'
      else
        if Ascii.eqb c LBRACE
        then emit_lit cur ++ compile_from [] true t'
        else compile_from (c :: cur) false t'
  end.

Definition compile (template : str) : list field :=
  compile_from [] false template.

Inductive capture : Type :=
| Fixed (text : str)
| Named (name : str) (text : str).

Definition cap (name : option str) (text : str) : capture :=
  match name with
  | None => Fixed text
  | Some n => Named n text
  end.

(** [l] matched at the head of [s] ignoring case; the rest of [s]. *)
Fixpoint drop_prefix_ci (l s : str) : option str :=
  match l, s with
  | [], _ => Some s
  | _ :: _, [] => None
  | a :: l', c :: s' =>
      if Ascii.eqb (lower_char a) (lower_char c)
      then drop_prefix_ci l' s' else None
  end.

(** The first match in the order a backtracking matcher tries them:
    a non-greedy field takes the shortest run first, a whitespace field
    the longest first; the whole of [s] must be used. *)
Fixpoint match_fields (fs : list field) (s : str) : option (list capture) :=
  match fs with
  | [] => match s with [] => Some [] | _ => None end
  | Lit l :: fs' =>
      match drop_prefix_ci l s with
      | Some rest => match_fields fs' rest
      | None => None
      end
  | Any name :: fs' =>
      (fix lazy (acc s : str) {struct s} : option (list capture) :=
         match s with
         | [] => None
         | c :: s' =>
             match match_fields fs' s' with
             | Some caps => Some (cap name (rev (c :: acc)) :: caps)
             | None => lazy (c :: acc) s'
             end
         end) [] s
  | Ws :: fs' =>
      (fix greedy (acc s : str) {struct s} : option (list capture) :=
         match s with
         | [] => None
         | c :: s' =>
             if isspace c then
               match greedy (c :: acc) s' with
               | Some r => Some r
               | None =>
                   match match_fields fs' s' with
                   | Some caps => Some (Fixed (rev (c :: acc)) :: caps)
                   | None => None
                   end
               end
             else None
         end) [] s
  end.

(** [parse.Result]: the positional and the named captures. *)
Record Result : Type := mkResult {
  fixed : list str;
  named : list (str * str)
}.

Fixpoint fixed_of (caps : list capture) : list str :=
  match caps with
  | [] => []
  | Fixed t :: r => t :: fixed_of r
  | Named _ _ :: r => fixed_of r
  end.

Fixpoint named_of (caps : list capture) : list (str * str) :=
  match caps with
  | [] => []
  | Fixed _ :: r => named_of r
  | Named n t :: r => (n, t) :: named_of r
  end.

Definition parse (template text : str) : option Result :=
  match match_fields (compile template) text with
  | Some caps => Some (mkResult (fixed_of caps) (named_of caps))
  | None => None
  end.

(** [result.named.get(name)] *)
Fixpoint named_get (name : str) (d : list (str * str)) : option str :=
  match d with
  | [] => None
  | (k, v) :: d' => if str_eqb k name then Some v else named_get name d'
  end.

(** [name in result] *)
Definition result_contains (name : str) (r : Result) : bool :=
  match named_get name (named r) with Some _ => true | None => false end.

(** ** pg_materialized_view.py *)

Record PGMaterializedView : Type := mkView {
  schema : str;
  signature : str;
  definition : str;
  with_data : bool;
  include_schema_prefix : bool
}.

Section MaterializedView.

(** The process-wide flag read from the environment at import. *)
Variable NEVER_INCLUDE_SCHEMA : bool.

(** [PGMaterializedView.__init__] *)
Definition init (signature definition schema : str) (with_data : bool)
  : PGMaterializedView :=
  let schema := if NEVER_INCLUDE_SCHEMA then ("public" : str) else schema in
  mkView
    (coerce_to_unquoted (normalize_whitespace schema))
    (coerce_to_unquoted (normalize_whitespace signature))
    (strip_terminating_semicolon definition)
    with_data
    (negb (str_eqb schema "public")).

Definition templates : list str :=
  [ "create{}materialized{}view{:s}{schema}.{signature}{:s}as{:s}{definition}{:s}with{:s}data" : str;
    "create{}materialized{}view{:s}{schema}.{signature}{:s}as{:s}{definition}{}with{:s}{no_data}{:s}data" : str;
    "create{}materialized{}view{:s}{schema}.{signature}{:s}as{:s}{definition}" : str;
    "create{}materialized{}view{:s}{signature}{:s}as{:s}{definition}{:s}with{:s}data" : str;
    "create{}materialized{}view{:s}{signature}{:s}as{:s}{definition}{}with{:s}{no_data}{:s}data" : str;
    "create{}materialized{}view{:s}{signature}{:s}as{:s}{definition}" : str ].

Definition TRIPLE_QUOTE : str := [DQUOTE; DQUOTE; DQUOTE].

Section WithParser.

(** The template matcher, [parse] of the package of that name. *)
Variable parse_fn : str -> str -> option Result.

(** The object built from a successful match. *)
Definition view_of_match (r : Result) : PGMaterializedView :=
  let with_data := negb (result_contains "no_data" r) in
  let signature :=
    hd [] (split (match named_get "signature" (named r) with
                  | Some t => t | None => [] end) [LPAREN]) in
  let schema :=
    match named_get "schema" (named r) with
    | Some t => t | None => ("public" : str) end in
  let schema := if NEVER_INCLUDE_SCHEMA then ("public" : str) else schema in
  init (str_replace signature [DQUOTE] [])
       (match named_get "definition" (named r) with
        | Some t => t | None => [] end)
       schema with_data.

(** The loop over the templates: the first that matches wins. *)
Fixpoint try_templates (ts : list str) (sql : str)
  : option PGMaterializedView :=
  match ts with
  | [] => None
  | template :: ts' =>
      match parse_fn template sql with
      | Some r => Some (view_of_match r)
      | None => try_templates ts' sql
      end
  end.

(** [PGMaterializedView.from_sql] *)
Definition from_sql_with (sql : str) : result PGMaterializedView :=
  let sql := strip_terminating_semicolon sql in
  match try_templates templates sql with
  | Some v => ret v
  | None =>
      raise (SQLParseFailure
               ("Failed to parse SQL into PGView " ++ TRIPLE_QUOTE
                  ++ sql ++ TRIPLE_QUOTE))
  end.

End WithParser.

Definition from_sql (sql : str) : result PGMaterializedView :=
  from_sql_with parse sql.

End MaterializedView.

(** ** pg_materialized_view.py: rendering *)

Section Rendering.

(** [self.literal_schema_prefix], a property of the base class
    [ReplaceableEntity]. *)
Variable literal_schema_prefix : PGMaterializedView -> str.

(** [to_sql_statement_create]; a [TextClause] is its text. *)
Definition to_sql_statement_create (self : PGMaterializedView) : str :=
  let definition :=
    rstrip_by (is_char SEMICOLON) (rstrip (definition self)) in
  "CREATE MATERIALIZED VIEW " ++ literal_schema_prefix self
    ++ [DQUOTE] ++ signature self ++ [DQUOTE] ++ " AS " ++ definition
    ++ " WITH " ++ (if negb (with_data self) then "NO" else "") ++ " DATA;".

(** [to_sql_statement_create_or_replace]: the statements yielded, in
    order. *)
Definition to_sql_statement_create_or_replace (self : PGMaterializedView)
  : list str :=
  let definition :=
    rstrip_by (is_char SEMICOLON) (rstrip (definition self)) in
  [ "DROP MATERIALIZED VIEW IF EXISTS " ++ literal_schema_prefix self
      ++ [DQUOTE] ++ signature self ++ [DQUOTE] ++ "; ";
    "CREATE MATERIALIZED VIEW " ++ literal_schema_prefix self
      ++ [DQUOTE] ++ signature self ++ [DQUOTE] ++ " AS " ++ definition
      ++ " WITH " ++ (if negb (with_data self) then "NO" else "") ++ " DATA" ].

End Rendering.

(** ** statement.py: splitting a function or procedure statement *)

(** [s.split(sep, maxsplit)] for a one-character separator. *)
Fixpoint split_char_max (sep : ascii) (maxsplit : nat) (cur : str) (s : str)
  : list str :=
  match s with
  | [] => [rev cur]
  | c :: s' =>
      match maxsplit with
      | O => [rev cur ++ s]
      | S m =>
          if Ascii.eqb c sep
          then rev cur :: split_char_max sep m [] s'
          else split_char_max sep maxsplit (c :: cur) s'
      end
  end.

(** The decimal rendering of a length inside an f-string. *)
Definition str_of_nat (n : nat) : str :=
  list_ascii_of_string (DecimalString.NilEmpty.string_of_uint (Nat.to_uint n)).

Section FunctionStatement.

(** The grammar codec is an outside package: the tree nodes below the
    statement, the parser [query_to_pb] (which raises [PgQueryExc], here
    [inl] with its message) and the serializer [pb_to_query]. *)
Variables Node TypeName DropStmt OtherStmt : Type.

Record CreateFunctionStmt : Type := mkCreateFunctionStmt {
  is_procedure : bool;
  replace : bool;
  funcname : list Node;
  parameters : list Node;
  return_type : TypeName;
  options : list Node;
  sql_body : option Node
}.

(** The statement kinds of the tree's one-of field [stmt.stmt]. *)
Inductive StmtNode : Type :=
| create_function_stmt (c : CreateFunctionStmt)
| create_procedure_stmt (c : CreateFunctionStmt)
| drop_stmt (d : DropStmt)
| other_stmt (o : OtherStmt).

Record RawStmt : Type := mkRawStmt { stmt : StmtNode }.

Record ParseResult : Type := mkParseResult { stmts : list RawStmt }.

Variable query_to_pb : str -> (str + ParseResult).
Variable pb_to_query : ParseResult -> str.
(** The text of a statement inside an error message. *)
Variable repr_stmt : RawStmt -> str.
(** [node.string.sval] *)
Variable sval : Node -> str.

Definition parse_sql (sql : str) : result ParseResult :=
  match query_to_pb sql with
  | inl msg => raise (PgQueryExc msg)
  | inr tree => ret tree
  end.

(** [_get_create_function_stmt] *)
Definition _get_create_function_stmt (parse_tree : ParseResult)
  : result CreateFunctionStmt :=
  match stmts parse_tree with
  | [s] =>
      match stmt s with
      | create_function_stmt c => ret c
      | create_procedure_stmt c => ret c
      | _ =>
          raise (ValueError
                   ("Expected create_function_stmt or create_procedure_stmt got "
                      ++ repr_stmt s))
      end
  | l =>
      raise (ValueError ("Expected 1 statement, got " ++ str_of_nat (length l)))
  end.

(** The statement returned by [_get_create_function_stmt] is a reference
    into the tree: writing to it changes the tree.  [set_stmt tree c] is
    the tree after the statement has become [c]. *)
Definition set_stmt (parse_tree : ParseResult) (c : CreateFunctionStmt)
  : ParseResult :=
  match stmts parse_tree with
  | [s] =>
      match stmt s with
      | create_function_stmt _ =>
          mkParseResult [mkRawStmt (create_function_stmt c)]
      | create_procedure_stmt _ =>
          mkParseResult [mkRawStmt (create_procedure_stmt c)]
      | _ => parse_tree
      end
  | _ => parse_tree
  end.

(** [_get_func_signature_returns_and_type] *)
Definition _get_func_signature_returns_and_type (func_sql : str)
  : result (str * bool) :=
  parse_tree <- parse_sql func_sql ;;
  c <- _get_create_function_stmt parse_tree ;;
  let is_proc := is_procedure c in
  let c :=
    mkCreateFunctionStmt false false
      (if 1 <? length (funcname c) then tl (funcname c) else funcname c)
      (parameters c) (return_type c) [] None in
  let stmt_str := pb_to_query (set_stmt parse_tree c) in
  let prefix : str := "create function" in
  if negb (startswith (lower stmt_str) prefix)
  then raise (ValueError ("Expected " ++ prefix ++ " got " ++ stmt_str))
  else ret (strip (skipn (length prefix) stmt_str), is_proc).

(** [_get_func_schema], with the default schema [public] *)
Definition _get_func_schema (func_sql : str) : result str :=
  parse_tree <- parse_sql func_sql ;;
  c <- _get_create_function_stmt parse_tree ;;
  match funcname c with
  | n :: _ :: _ =>
      let schema_name := sval n in
      if startswith schema_name [DQUOTE] || startswith schema_name "'"
      then ret (removelast (tl schema_name))
      else ret schema_name
  | _ => ret ("public" : str)
  end.

Definition dummy_func_sql : str :=
  "CREATE FUNCTION foo.bar() RETURNS void AS $$ BEGIN $$ LANGUAGE plpgsql;".

Definition RETURNS_VOID : str := "RETURNS void".
Definition DUMMY_HEADER : str := "create function foo.bar()".

(** The tree serialized by [_get_func_body]: the name, the parameters and
    the return type of the dummy statement spliced into the real one. *)
Definition spliced (parse_tree : ParseResult) (c dummy : CreateFunctionStmt)
  : ParseResult :=
  set_stmt parse_tree
    (mkCreateFunctionStmt false false
       (funcname dummy) (parameters dummy) (return_type dummy)
       (options c) (sql_body c)).

(** [_get_func_body] *)
Definition _get_func_body (func_sql : str) : result str :=
  parse_tree_dummy <- parse_sql dummy_func_sql ;;
  dummy_create_func_stmt <- _get_create_function_stmt parse_tree_dummy ;;
  parse_tree <- parse_sql func_sql ;;
  create_func_stmt <- _get_create_function_stmt parse_tree ;;
  let func_str :=
    pb_to_query (spliced parse_tree create_func_stmt dummy_create_func_stmt) in
  let func_split := split func_str RETURNS_VOID in
  match func_split with
  | [before; after] =>
      if negb (str_eqb (lower (strip before)) DUMMY_HEADER)
      then raise (ValueError ("Expected CREATE FUNCTION foo.bar() got " ++ before))
      else ret after
  | _ =>
      raise (ValueError
               ("Expected 1 instance of RETURNS void in statement: " ++ func_sql))
  end.

(** [validate_split_function] *)
Definition validate_split_function
  (signature returns schema body : str) (is_proc : bool) : result unit :=
  let entity_kind : str := if is_proc then "PROCEDURE" else "FUNCTION" in
  let reconstructed_sql :=
    "CREATE " ++ entity_kind ++ " " ++ schema ++ "." ++ signature ++ " "
      ++ returns ++ " " ++ body in
  _ <- parse_sql reconstructed_sql ;;
  ret tt.

Definition named_or_empty (name : str) (r : Result) : str :=
  match named_get name (named r) with Some t => t | None => [] end.

(** The body of the [try] block of [split_function]. *)
Definition split_function_body (sql : str)
  : result (str * str * str * str * bool) :=
  sr <- _get_func_signature_returns_and_type sql ;;
  let '(signature_and_return, is_proc) := sr in
  let '(raw_signature, returns) :=
    match parse "{signature}returns{ret_type}" signature_and_return with
    | None => (signature_and_return, [])
    | Some r =>
        (strip (named_or_empty "signature" r),
         "returns " ++ strip (named_or_empty "ret_type" r))
    end in
  schema <- _get_func_schema sql ;;
  body <- _get_func_body sql ;;
  let signature :=
    if startswith raw_signature [DQUOTE]
    then join [] (split_char_max DQUOTE 2 [] raw_signature)
    else raw_signature in
  _ <- validate_split_function signature returns schema body is_proc ;;
  ret (signature, returns, schema, body, is_proc).

(** [split_function]: the codec's parse error, and only it, is turned
    into [SQLParseFailure]. *)
Definition split_function (sql : str)
  : result (str * str * str * str * bool) :=
  match split_function_body sql with
  | inl (PgQueryExc msg) => raise (SQLParseFailure msg)
  | r => r
  end.

End FunctionStatement.

(** ** statement.py: the drop statement of a routine *)

(** What [render_drop_statement] raises: an exception of the functions it
    calls, or the [AssertionError] of one of its two [assert]s. *)
Inductive drop_exn : Type :=
| Raised (e : exn)
| AssertionError.

Section DropStatement.

Variables Node TypeName OtherStmt : Type.
(** The fields of a drop statement besides its objects: the kind of the
    objects, the behaviour, the flags. *)
Variable DropAttrs : Type.

(** [ObjectWithArgs] *)
Record ObjectWithArgs : Type := mkObjectWithArgs {
  objname : list Node;
  objargs : list Node;
  objfuncargs : list Node;
  args_unspecified : bool
}.

(** An element of [drop_stmt.objects]: a node whose one-of field is
    [object_with_args], or a node of another kind. *)
Inductive DropObject : Type :=
| object_with_args (o : ObjectWithArgs)
| other_object (n : Node).

Record DropStmt : Type := mkDropStmt {
  objects : list DropObject;
  drop_attrs : DropAttrs
}.

Variable query_to_pb : str -> (str + ParseResult Node TypeName DropStmt OtherStmt).
Variable pb_to_query : ParseResult Node TypeName DropStmt OtherStmt -> str.
Variable repr_stmt : RawStmt Node TypeName DropStmt OtherStmt -> str.
(** [p.function_parameter.ClearField], of the field [defexpr]: the
    parameter without its default. *)
Variable clear_defexpr : Node -> Node.

(** [_get_drop_stmt] *)
Definition _get_drop_stmt (parse_tree : ParseResult Node TypeName DropStmt OtherStmt)
  : result DropStmt :=
  match stmts _ _ _ _ parse_tree with
  | [s] =>
      match stmt _ _ _ _ s with
      | drop_stmt _ _ _ _ d => ret d
      | _ => raise (ValueError ("Expected drop_stmt got " ++ repr_stmt s))
      end
  | l =>
      raise (ValueError ("Expected 1 statement, got " ++ str_of_nat (length l)))
  end.

(** Reading the field [object_with_args] of a node of another kind gives
    the empty message. *)
Definition object_with_args_of (o : DropObject) : ObjectWithArgs :=
  match o with
  | object_with_args w => w
  | other_object _ => mkObjectWithArgs [] [] [] false
  end.

Definition lift_exn {A : Type} (m : result A) : drop_exn + A :=
  match m with
  | inl e => inl (Raised e)
  | inr a => inr a
  end.

(** [render_drop_statement]: the name and the parameters of the routine,
    defaults cleared, written into the one object of a dummy drop
    statement, which is then serialized. *)
Definition render_drop_statement (func_sql : str) (is_proc : bool)
  : drop_exn + str :=
  let entity_kind : str := if is_proc then "PROCEDURE" else "FUNCTION" in
  let dummy_drop_sql := "DROP " ++ entity_kind ++ " sqrt(integer);" in
  match lift_exn (parse_sql _ _ _ _ query_to_pb dummy_drop_sql) with
  | inl e => inl e
  | inr dummy_parse_tree =>
  match lift_exn (_get_drop_stmt dummy_parse_tree) with
  | inl e => inl e
  | inr drop =>
  match lift_exn (parse_sql _ _ _ _ query_to_pb func_sql) with
  | inl e => inl e
  | inr parse_tree =>
  match lift_exn (_get_create_function_stmt _ _ _ _ repr_stmt parse_tree) with
  | inl e => inl e
  | inr create_func_stmt =>
      match objects drop with
      | [o] =>
          let obj := object_with_args_of o in
          match objname obj with
          | [] => inl AssertionError
          | _ =>
              let obj :=
                mkObjectWithArgs
                  (funcname _ _ create_func_stmt) []
                  (map clear_defexpr (parameters _ _ create_func_stmt))
                  (args_unspecified obj) in
              inr (pb_to_query
                     (mkParseResult _ _ _ _
                        [mkRawStmt _ _ _ _
                           (drop_stmt _ _ _ _
                              (mkDropStmt [object_with_args obj]
                                 (drop_attrs drop)))]))
          end
      | _ => inl AssertionError
      end
  end end end end.

End DropStatement.

(** ** statement.py: colon escaping

    [uuid4] is the one source of randomness: the holders it returns are
    arguments here. *)

(** [escape_colon_for_sql] *)
Definition escape_colon_for_sql (holder : str) (sql : str) : str :=
  let sql := str_replace sql "::" holder in
  let sql := str_replace sql ":" [BACKSLASH; COLON] in
  let sql := str_replace sql holder "::" in
  sql.

(** [escape_colon_for_plpgsql] *)
Definition escape_colon_for_plpgsql (holder1 holder2 holder3 : str) (sql : str)
  : str :=
  let sql := str_replace sql "::" holder1 in
  let sql := str_replace sql ":=" holder2 in
  let sql := str_replace sql [BACKSLASH; COLON] holder3 in
  let sql := str_replace sql ":" [BACKSLASH; COLON] in
  let sql := str_replace sql holder3 [BACKSLASH; COLON] in
  let sql := str_replace sql holder2 ":=" in
  let sql := str_replace sql holder1 "::" in
  sql.

(** The text of a version-4 UUID, [str(uuid4())]: 36 characters, lower-case
    hexadecimal digits in groups of 8, 4, 4, 4 and 12 separated by hyphens,
    the version digit 4 and a variant digit among 8, 9, a, b. *)
Definition is_hex (c : ascii) : bool :=
  let n := nat_of_ascii c in
  ((48 <=? n) && (n <=? 57)) || ((97 <=? n) && (n <=? 102)).

Definition uuid_shape : list bool :=
  repeat false 8 ++ [true] ++ repeat false 4 ++ [true] ++ repeat false 4
    ++ [true] ++ repeat false 4 ++ [true] ++ repeat false 12.

Fixpoint shape_ok (shape : list bool) (s : str) : bool :=
  match shape, s with
  | [], [] => true
  | b :: shape', c :: s' =>
      (if b then Ascii.eqb c HYPHEN else is_hex c) && shape_ok shape' s'
  | _, _ => false
  end.

Definition is_uuid4 (s : str) : bool :=
  shape_ok uuid_shape s
  && Ascii.eqb (nth 14 s SPACE) (ascii_of_nat 52)
  && existsb (Ascii.eqb (nth 19 s SPACE)) ("89ab" : str).

(** [sub in s] *)
Fixpoint contains (s sub : str) : bool :=
  startswith s sub || match s with [] => false | _ :: s' => contains s' sub end.

(** [s.endswith(c)] for one character. *)
Definition endswith_char (s : str) (c : ascii) : bool :=
  match rev s with
  | [] => false
  | a :: _ => Ascii.eqb a c
  end.

(** The number of positions of [s] at which [sep] starts. *)
Fixpoint occurrences (s sep : str) : nat :=
  match s with
  | [] => 0
  | _ :: s' => (if startswith s sep then 1 else 0) + occurrences s' sep
  end.

(** The tree holds exactly one statement, and it creates a function or a
    procedure. *)
Definition single_routine {Node TypeName DropStmt OtherStmt : Type}
  (tree : ParseResult Node TypeName DropStmt OtherStmt) : bool :=
  match stmts _ _ _ _ tree with
  | [s] =>
      match stmt _ _ _ _ s with
      | create_function_stmt _ _ _ _ _ => true
      | create_procedure_stmt _ _ _ _ _ => true
      | _ => false
      end
  | _ => false
  end.

(** A codec instance for a two-statement input: both statements are of
    another kind than routine creation. *)
Module TwoStatements.

Definition tree : ParseResult unit unit unit unit :=
  mkParseResult _ _ _ _
    [mkRawStmt _ _ _ _ (other_stmt _ _ _ _ tt);
     mkRawStmt _ _ _ _ (other_stmt _ _ _ _ tt)].

Definition query_to_pb (sql : str) : str + ParseResult unit unit unit unit :=
  inr tree.

Definition pb_to_query (t : ParseResult unit unit unit unit) : str :=
  "SELECT 1; SELECT 2".

Definition split_function (sql : str) : result (str * str * str * str * bool) :=
  split_function unit unit unit unit query_to_pb pb_to_query
    (fun _ => "SelectStmt" : str) (fun _ => []) sql.

End TwoStatements.

(** ** Holders as marks

    To follow the holders through the replacements, a text is read as a
    list of tokens: a character of the text, or a mark standing for one
    inserted holder. *)

Inductive mark : Type := M1 | M2 | M3.

Definition mark_eqb (a b : mark) : bool :=
  match a, b with
  | M1, M1 | M2, M2 | M3, M3 => true
  | _, _ => false
  end.

Inductive tok : Type :=
| C (c : ascii)
| H (m : mark).

(** The text of a token list, each mark written as its holder. *)
Definition flatten (hs : mark -> str) (ts : list tok) : str :=
  flat_map (fun t => match t with C c => [c] | H m => hs m end) ts.

(** The two characters [a], [b] in a row become the mark [m], leftmost
    first. *)
Fixpoint trep (a b : ascii) (m : mark) (ts : list tok) : list tok :=
  match ts with
  | [] => []
  | t :: ts' =>
      match t, ts' with
      | C x, C y :: ts'' =>
          if Ascii.eqb x a && Ascii.eqb y b
          then H m :: trep a b m ts''
          else t :: trep a b m ts'
      | _, _ => t :: trep a b m ts'
      end
  end.

(** Every colon left gets a backslash in front. *)
Definition tesc (ts : list tok) : list tok :=
  flat_map (fun t => match t with
                     | C c => if Ascii.eqb c COLON
                              then [C BACKSLASH; C COLON] else [t]
                     | H _ => [t]
                     end) ts.

(** The mark [m] becomes the characters of [new]. *)
Definition tsubst (m : mark) (new : str) (ts : list tok) : list tok :=
  flat_map (fun t => match t with
                     | C _ => [t]
                     | H m' => if mark_eqb m' m then map C new else [t]
                     end) ts.

(** What each mark stands for in the end. *)
Definition unit_of (m : mark) : str :=
  match m with
  | M1 => "::"
  | M2 => ":="
  | M3 => [BACKSLASH; COLON]
  end.

Definition expand (ts : list tok) : str := flatten unit_of ts.

(** The escaping functions with marks in place of holders. *)
Definition marked_sql (sql : str) : list tok :=
  tesc (trep COLON COLON M1 (map C sql)).

Definition marked_plpgsql (sql : str) : list tok :=
  tesc (trep BACKSLASH COLON M3
          (trep COLON EQUALS M2 (trep COLON COLON M1 (map C sql)))).

Definition ideal_sql (sql : str) : str := expand (marked_sql sql).
Definition ideal_plpgsql (sql : str) : str := expand (marked_plpgsql sql).

(** The characters a holder is made of. *)
Definition is_hyphen (c : ascii) : bool := Ascii.eqb c HYPHEN.
Definition alpha (c : ascii) : bool := is_hex c || is_hyphen c.

(** The middle of a holder: its characters 8 to 23, from the first hyphen
    to the last. *)
Definition mid (h : str) : str := firstn 16 (skipn 8 h).

(** The tokens start with characters spelling [w]. *)
Fixpoint spells (w : str) (ts : list tok) : bool :=
  match w with
  | [] => true
  | a :: w' =>
      match ts with
      | C c :: ts' => Ascii.eqb a c && spells w' ts'
      | _ => false
      end
  end.

(** Nowhere do the tokens spell [w]. *)
Fixpoint unspelled (w : str) (ts : list tok) : bool :=
  match ts with
  | [] => true
  | _ :: ts' => negb (spells w ts) && unspelled w ts'
  end.

(** ** Auxiliary notions for the properties *)

(** The first character, if any, is kept by [dropwhile p]. *)
Definition head_kept (p : ascii -> bool) (s : str) : Prop :=
  match s with
  | [] => True
  | c :: _ => p c = false
  end.

Definition last_kept (p : ascii -> bool) (s : str) : Prop := head_kept p (rev s).

Definition QUOTED_PUBLIC : str := [DQUOTE] ++ "public" ++ [DQUOTE].

Definition NO_DATA_SQL : str :=
  "create materialized view s.v as select 1 with no data".

(** A codec instance for one function statement: the serializer writes the
    header of the dummy statement and the options, which are text here. *)
Module OneFunction.

Definition stmt_of (sql : str) : CreateFunctionStmt str unit :=
mkCreateFunctionStmt str unit false false [] [] tt [sql] None.

Definition tree_of (sql : str) : ParseResult str unit unit unit :=
mkParseResult _ _ _ _
  [mkRawStmt _ _ _ _ (create_function_stmt _ _ _ _ (stmt_of sql))].

Definition query_to_pb (sql : str) : str + ParseResult str unit unit unit :=
inr (tree_of sql).

Definition pb_to_query (t : ParseResult str unit unit unit) : str :=
match stmts _ _ _ _ t with
| [s] =>
    match stmt _ _ _ _ s with
    | create_function_stmt _ _ _ _ c =>
        "CREATE FUNCTION foo.bar() RETURNS void" ++ concat (options _ _ c)
    | _ => []
    end
| _ => []
end.

Definition SAMPLE : str := " AS $$ select 1 $$ LANGUAGE sql".

End OneFunction.

(** A codec instance for drop statements: a statement is its name, its
    parameters and, for a routine, its body; the parser reads every text
    starting with DROP as the drop of [sqrt(integer)] and every other text
    as a routine [f(x)] with the text as its body. *)
Module DropCodec.

Definition Tree : Type := ParseResult str unit (DropStmt str unit) unit.

Definition drop_tree : Tree :=
mkParseResult _ _ _ _
  [mkRawStmt _ _ _ _
     (drop_stmt _ _ _ _
        (mkDropStmt _ _
           [object_with_args _ (mkObjectWithArgs _ ["sqrt" : str] ["integer" : str] [] false)]
           tt))].

Definition routine_tree (body : str) : Tree :=
mkParseResult _ _ _ _
  [mkRawStmt _ _ _ _
     (create_function_stmt _ _ _ _
        (mkCreateFunctionStmt _ _ false false ["f" : str] ["x" : str] tt [body] None))].

Definition query_to_pb (sql : str) : str + Tree :=
if startswith sql "DROP" then inr drop_tree else inr (routine_tree sql).

Definition pb_to_query (t : Tree) : str :=
match stmts _ _ _ _ t with
| [s] =>
    match stmt _ _ _ _ s with
    | drop_stmt _ _ _ _ d =>
        "DROP FUNCTION "
          ++ concat (map (fun o => concat (objname _ (object_with_args_of _ o))
                                     ++ "(" ++ concat (objfuncargs _ (object_with_args_of _ o))
                                     ++ ")")
                       (objects _ _ d))
    | _ => []
    end
| _ => []
end.

End DropCodec.

(** A word made of holder characters. *)
Definition holder_word (w : str) : Prop :=
  w <> [] /\ Forall (fun c => alpha c = true) w.

Definition holders3 (h1 h2 h3 : str) (m : mark) : str :=
  match m with M1 => h1 | M2 => h2 | M3 => h3 end.

Definition UUID_A : str := "aaaaaaaa-aaaa-4aaa-8aaa-aaaaaaaaaaaa".
Definition UUID_B : str := "bbbbbbbb-bbbb-4bbb-8bbb-bbbbbbbbbbbb".
Definition UUID_C : str := "cccccccc-cccc-4ccc-8ccc-cccccccccccc".
Definition UUID_D : str := "dddddddd-dddd-4ddd-8ddd-dddddddddddd".
Definition UUID_E : str := "eeeeeeee-eeee-4eee-8eee-eeeeeeeeeeee".
Definition UUID_F : str := "ffffffff-ffff-4fff-8fff-ffffffffffff".

Definition PLPGSQL_SAMPLE : str := "x := 1; y::int; z:=2".

(** A text that ends in most of a holder, a lone colon in front and a
    double colon behind. *)
Definition OVERLAP_SAMPLE : str := ":aaaaaaaa-aaaa-4aaa-8aaa-aaaaaaaaaaa::".

Definition MIXED_SAMPLE : str :=
  "x := 1; y::int; z:=2 : " ++ [BACKSLASH] ++ ": a-b".

(** Every colon left becomes the mark of an escaped colon. *)
Definition tcolon (ts : list tok) : list tok :=
  map (fun t => match t with
                | C c => if Ascii.eqb c COLON then H M3 else t
                | H _ => t
                end) ts.

(** The marks written out again, innermost first. *)
Definition open3 (ts : list tok) : list tok := tsubst M3 [BACKSLASH; COLON] ts.
Definition open2 (ts : list tok) : list tok := tsubst M2 [COLON; EQUALS] (open3 ts).
Definition open1 (ts : list tok) : list tok := tsubst M1 [COLON; COLON] (open2 ts).

Definition hd_ok (q : tok -> bool) (ts : list tok) : bool :=
  match ts with
  | [] => true
  | t :: _ => q t
  end.

(** Every token that satisfies [p] is followed, if at all, by one that
    satisfies [q]. *)
Fixpoint follows (p q : tok -> bool) (ts : list tok) : bool :=
  match ts with
  | [] => true
  | t :: ts' => (if p t then hd_ok q ts' else true) && follows p q ts'
  end.

Definition is_colon (t : tok) : bool :=
  match t with C c => Ascii.eqb c COLON | H _ => false end.

Definition colon_like (t : tok) : bool :=
  match t with C c => Ascii.eqb c COLON | H M3 => true | H _ => false end.

Definition plain (t : tok) : bool :=
  match t with C c => negb (Ascii.eqb c COLON) | H _ => false end.

Definition plain_no_eq (t : tok) : bool :=
  match t with
  | C c => negb (Ascii.eqb c COLON) && negb (Ascii.eqb c EQUALS)
  | H _ => false
  end.

(** What may come after an escaped colon. *)
Definition after_escaped (t : tok) : bool :=
  match t with
  | C c => negb (Ascii.eqb c COLON) && negb (Ascii.eqb c EQUALS)
  | H M3 => true
  | H _ => false
  end.

(** No colon character is left, and no escaped colon is followed by a
    colon or an equals sign. *)
Fixpoint stable (ts : list tok) : bool :=
  match ts with
  | [] => true
  | t :: ts' =>
      match t with
      | C c => negb (Ascii.eqb c COLON)
      | H M3 => hd_ok after_escaped ts'
      | H _ => true
      end && stable ts'
  end.

Definition hd_is (b : ascii) (ts : list tok) : bool :=
  match ts with C y :: _ => Ascii.eqb y b | _ => false end.

(** A word: not empty, no whitespace in it. *)
Definition is_word (w : str) : Prop :=
  w <> [] /\ Forall (fun c => isspace c = false) w.

(** ** The matcher, loop by loop *)

(** The loop of a non-greedy field, with what follows it as [k]. *)
Fixpoint lazy_any (k : str -> option (list capture)) (name : option str)
  (acc s : str) : option (list capture) :=
  match s with
  | [] => None
  | c :: s' =>
      match k s' with
      | Some caps => Some (cap name (rev (c :: acc)) :: caps)
      | None => lazy_any k name (c :: acc) s'
      end
  end.

(** The loop of a whitespace field. *)
Fixpoint greedy_ws (k : str -> option (list capture)) (acc s : str)
  : option (list capture) :=
  match s with
  | [] => None
  | c :: s' =>
      if isspace c then
        match greedy_ws k (c :: acc) s' with
        | Some r => Some r
        | None =>
            match k s' with
            | Some caps => Some (Fixed (rev (c :: acc)) :: caps)
            | None => None
            end
        end
      else None
  end.

Definition cap_name (c : capture) : option str :=
  match c with Fixed _ => None | Named n _ => Some n end.

(** The names of the captures a template gives, in order: none for a
    positional one. *)
Fixpoint field_names (fs : list field) : list (option str) :=
  match fs with
  | [] => []
  | Lit _ :: r => field_names r
  | Any n :: r => n :: field_names r
  | Ws :: r => None :: field_names r
  end.

Definition has_name (n : str) (l : list (option str)) : bool :=
  existsb (fun o => match o with Some k => str_eqb k n | None => false end) l.

(** * Properties *)

(** ** Stripping *)

Section Stripping.

Variable p : ascii -> bool.

Lemma dropwhile_head_kept s : head_kept p (dropwhile p s).
Proof.
  induction s as [|c s IH]; simpl; [exact I|].
  destruct (p c) eqn:E; [exact IH | exact E].
Qed.

Lemma dropwhile_fix s : head_kept p s -> dropwhile p s = s.
Proof. destruct s as [|c s]; simpl; [reflexivity|]. intros ->. reflexivity. Qed.

Lemma dropwhile_suffix s : exists t, s = t ++ dropwhile p s.
Proof.
  induction s as [|c s [t IH]]; simpl.
  - exists []. reflexivity.
  - destruct (p c).
    + exists (c :: t). simpl. f_equal. exact IH.
    + exists []. reflexivity.
Qed.

Lemma rstrip_by_last_kept s : last_kept p (rstrip_by p s).
Proof.
  unfold last_kept, rstrip_by. rewrite rev_involutive.
  apply dropwhile_head_kept.
Qed.

Lemma rstrip_by_fix s : last_kept p s -> rstrip_by p s = s.
Proof.
  unfold last_kept, rstrip_by. intros H.
  rewrite (dropwhile_fix _ H). apply rev_involutive.
Qed.

Lemma rstrip_by_prefix s : exists t, s = rstrip_by p s ++ t.
Proof.
  unfold rstrip_by. destruct (dropwhile_suffix (rev s)) as [t Ht].
  exists (rev t).
  rewrite <- rev_app_distr, <- Ht. symmetry. apply rev_involutive.
Qed.

Lemma rstrip_by_head_kept s : head_kept p s -> head_kept p (rstrip_by p s).
Proof.
  destruct (rstrip_by_prefix s) as [t Ht]. intros H.
  destruct (rstrip_by p s) as [|c r] eqn:E; [exact I|].
  rewrite Ht in H. exact H.
Qed.

Lemma dropwhile_incl s a : In a (dropwhile p s) -> In a s.
Proof.
  destruct (dropwhile_suffix s) as [t Ht]. intros H.
  rewrite Ht. apply in_or_app. right. exact H.
Qed.

Lemma rstrip_by_incl s a : In a (rstrip_by p s) -> In a s.
Proof.
  destruct (rstrip_by_prefix s) as [t Ht]. intros H.
  rewrite Ht. apply in_or_app. left. exact H.
Qed.

End Stripping.

Lemma strip_trimmed s : head_kept isspace (strip s) /\ last_kept isspace (strip s).
Proof.
  unfold strip, rstrip, lstrip, lstrip_by. split.
  - apply rstrip_by_head_kept, dropwhile_head_kept.
  - apply rstrip_by_last_kept.
Qed.

Lemma strip_fix s : head_kept isspace s -> last_kept isspace s -> strip s = s.
Proof.
  intros H1 H2. unfold strip, rstrip, lstrip, lstrip_by.
  rewrite (dropwhile_fix _ _ H1). apply rstrip_by_fix, H2.
Qed.

Lemma strip_idempotent s : strip (strip s) = strip s.
Proof. destruct (strip_trimmed s). now apply strip_fix. Qed.

Lemma strip_incl s a : In a (strip s) -> In a s.
Proof.
  unfold strip, rstrip, lstrip, lstrip_by. intros H.
  eapply dropwhile_incl, rstrip_by_incl, H.
Qed.

Lemma endswith_char_last_kept s c :
  endswith_char s c = false -> last_kept (is_char c) s.
Proof.
  unfold endswith_char, last_kept, head_kept, is_char.
  destruct (rev s) as [|a r]; [trivial|].
  rewrite Ascii.eqb_sym. trivial.
Qed.

Lemma contains_char_false c s :
  contains_char c s = false <-> ~ In c s.
Proof.
  unfold contains_char, is_char. split.
  - intros H Hin.
    assert (existsb (Ascii.eqb c) s = true) as E.
    { apply existsb_exists. exists c. split; [exact Hin | apply Ascii.eqb_refl]. }
    congruence.
  - intros H. destruct (existsb (Ascii.eqb c) s) eqn:E; [|reflexivity].
    apply existsb_exists in E. destruct E as [a [Ha Hb]].
    apply Ascii.eqb_eq in Hb. subst a. contradiction.
Qed.

(** A character is not in a literal text. *)
Ltac absent_char := apply contains_char_false; reflexivity.

Lemma not_in_last_kept c s : ~ In c s -> last_kept (is_char c) s.
Proof.
  unfold last_kept, head_kept, is_char. intros H.
  destruct (rev s) as [|a r] eqn:E; [trivial|].
  destruct (Ascii.eqb c a) eqn:Ea; [|reflexivity].
  apply Ascii.eqb_eq in Ea. subst a. exfalso. apply H.
  apply in_rev. rewrite E. now left.
Qed.

Lemma not_in_head_kept c s : ~ In c s -> head_kept (is_char c) s.
Proof.
  unfold head_kept, is_char. intros H. destruct s as [|a r]; [trivial|].
  destruct (Ascii.eqb c a) eqn:Ea; [|reflexivity].
  apply Ascii.eqb_eq in Ea. subst a. exfalso. apply H. now left.
Qed.

(** ** Splitting on one character *)

Lemma join_empty_cons p l : join [] (p :: l) = p ++ join [] l.
Proof. destruct l; simpl; [now rewrite app_nil_r | reflexivity]. Qed.

Lemma startswith_nil s : startswith s [] = true.
Proof. destruct s; reflexivity. Qed.

Lemma join_split_char c cur s :
  join [] (split_from [c] 0 cur s)
  = rev cur ++ filter (fun a => negb (Ascii.eqb c a)) s.
Proof.
  revert cur. induction s as [|a s IH]; intros cur.
  - simpl. now rewrite app_nil_r.
  - cbn [split_from startswith length Nat.sub filter].
    destruct (Ascii.eqb c a) eqn:E; cbn [andb negb].
    + rewrite join_empty_cons, IH. reflexivity.
    + rewrite IH. simpl. now rewrite <- app_assoc.
Qed.

Lemma coerce_to_unquoted_filter text :
  coerce_to_unquoted text = filter (fun a => negb (Ascii.eqb DQUOTE a)) text.
Proof. unfold coerce_to_unquoted, split. now rewrite join_split_char. Qed.

Lemma filter_not_in c s :
  ~ In c s -> filter (fun a => negb (Ascii.eqb c a)) s = s.
Proof.
  induction s as [|a s IH]; intros H; simpl; [reflexivity|].
  destruct (Ascii.eqb c a) eqn:E.
  - apply Ascii.eqb_eq in E. subst a. exfalso. apply H. now left.
  - simpl. f_equal. apply IH. intros Hin. apply H. now right.
Qed.

Lemma strip_double_quotes_plain s :
  ~ In DQUOTE s -> strip_double_quotes s = strip s.
Proof.
  intros H. unfold strip_double_quotes.
  assert (~ In DQUOTE (strip s)) as H' by (intros Hin; apply H, strip_incl, Hin).
  rewrite (rstrip_by_fix _ _ (not_in_last_kept _ _ H')).
  rewrite strip_idempotent.
  unfold lstrip_by. rewrite (dropwhile_fix _ _ (not_in_head_kept _ _ H')).
  apply strip_idempotent.
Qed.

(** C6, as the code has it: [strip_terminating_semicolon] applied twice
    equals applied once whenever the first result does not end in a
    semicolon. *)
Theorem strip_terminating_semicolon_idempotent_when_clean (sql : str) :
  endswith_char (strip_terminating_semicolon sql) SEMICOLON = false ->
  strip_terminating_semicolon (strip_terminating_semicolon sql)
  = strip_terminating_semicolon sql.
Proof.
  intros H. unfold strip_terminating_semicolon at 1.
  set (r := strip_terminating_semicolon sql) in *.
  assert (strip r = r) as Hr by apply strip_idempotent.
  rewrite Hr, (rstrip_by_fix _ _ (endswith_char_last_kept _ _ H)).
  exact Hr.
Qed.

Lemma strip_terminating_semicolon_idempotent_when_clean_witness :
  endswith_char (strip_terminating_semicolon "select 1 ;; ") SEMICOLON = false
  /\ strip_terminating_semicolon (strip_terminating_semicolon "select 1 ;; ")
     = strip_terminating_semicolon "select 1 ;; ".
Proof.
  split; [reflexivity|].
  apply (strip_terminating_semicolon_idempotent_when_clean "select 1 ;; ").
  reflexivity.
Defined.

(** C6 fails as stated: with whitespace between two trailing semicolons a
    second application removes one more semicolon; and a run of trailing
    semicolons is removed whole, not one semicolon at most. *)
Lemma strip_terminating_semicolon_not_idempotent :
  strip_terminating_semicolon (strip_terminating_semicolon "a; ;")
  <> strip_terminating_semicolon "a; ;"
  /\ strip_terminating_semicolon "a;;" = "a".
Proof. split; [vm_compute; discriminate | reflexivity]. Qed.

(** C7, as the code has it: for a text without dots and double quotes,
    quoting then unquoting gives the text stripped of surrounding
    whitespace, hence the text itself when it has none. *)
Theorem coerce_quote_unquote (x : str) :
  ~ In DOT x -> ~ In DQUOTE x ->
  coerce_to_unquoted (coerce_to_quoted x) = strip x
  /\ (strip x = x -> coerce_to_unquoted (coerce_to_quoted x) = x).
Proof.
  intros Hdot Hq.
  assert (coerce_to_unquoted (coerce_to_quoted x) = strip x) as E.
  { unfold coerce_to_quoted.
    apply contains_char_false in Hdot. rewrite Hdot.
    rewrite strip_double_quotes_plain by exact Hq.
    rewrite coerce_to_unquoted_filter.
    cbn [app filter]. rewrite Ascii.eqb_refl. cbn [negb].
    rewrite filter_app. cbn [filter]. rewrite Ascii.eqb_refl. cbn [negb].
    rewrite app_nil_r. apply filter_not_in.
    intros Hin. apply Hq, strip_incl, Hin. }
  split; [exact E|]. intros Hs. now rewrite E.
Qed.

Lemma coerce_quote_unquote_witness :
  coerce_to_unquoted (coerce_to_quoted "my view") = strip "my view"
  /\ coerce_to_unquoted (coerce_to_quoted "my view") = "my view".
Proof.
  destruct (coerce_quote_unquote "my view") as [H1 H2];
    [absent_char | absent_char |].
  split; [exact H1 | apply H2; reflexivity].
Defined.

(** C7 fails as stated: surrounding whitespace is lost. *)
Lemma coerce_quote_unquote_drops_whitespace :
  ~ In DOT (" a" : str) /\ ~ In DQUOTE (" a" : str)
  /\ coerce_to_unquoted (coerce_to_quoted " a") <> " a".
Proof.
  split; [absent_char|]. split; [absent_char|]. vm_compute. discriminate.
Qed.

(** ** The materialized view *)

Lemma coerce_to_unquoted_no_quote text : ~ In DQUOTE (coerce_to_unquoted text).
Proof.
  rewrite coerce_to_unquoted_filter. intros H.
  apply filter_In in H. destruct H as [_ H].
  now rewrite Ascii.eqb_refl in H.
Qed.

(** C3: the stored schema and signature never hold a double quote; but
    the prefix flag is computed from the constructor argument, so the
    quoted argument gives the stored schema [public] together with a set
    flag, from literal fields and from raw SQL alike. *)
Theorem init_prefix_flag_from_raw_argument :
  (forall never sig def sch wd,
      ~ In DQUOTE (schema (init never sig def sch wd))
      /\ ~ In DQUOTE (signature (init never sig def sch wd)))
  /\ schema (init false "mv" "select 1" QUOTED_PUBLIC true) = "public"
  /\ include_schema_prefix (init false "mv" "select 1" QUOTED_PUBLIC true) = true
  /\ from_sql false
       ("create materialized view " ++ QUOTED_PUBLIC ++ ".mv as select 1")
     = inr (mkView "public" "mv" "select 1" true true).
Proof.
  split.
  - intros. split; apply coerce_to_unquoted_no_quote.
  - repeat split; vm_compute; reflexivity.
Qed.

(** C4: the two templates with a data clause come before the bare one of
    the same shape; on the sample the first template fails, the second
    (the one capturing [no_data]) matches although the bare third would
    match too, and the view has [with_data] false. *)
Theorem from_sql_no_data_precedence (never : bool) :
  parse (nth 0 templates []) (strip_terminating_semicolon NO_DATA_SQL) = None
  /\ (exists r,
        parse (nth 1 templates []) (strip_terminating_semicolon NO_DATA_SQL)
        = Some r /\ result_contains "no_data" r = true)
  /\ (exists r,
        parse (nth 2 templates []) (strip_terminating_semicolon NO_DATA_SQL)
        = Some r /\ result_contains "no_data" r = false)
  /\ exists v, from_sql never NO_DATA_SQL = inr v /\ with_data v = false.
Proof.
  split; [vm_compute; reflexivity|].
  split; [eexists; split; vm_compute; reflexivity|].
  split; [eexists; split; vm_compute; reflexivity|].
  destruct never; eexists; split; vm_compute; reflexivity.
Qed.

(** C5: the first end-to-end scenario. *)
Theorem from_sql_scenario_1 (never : bool) :
  exists v,
    from_sql never "CREATE MATERIALIZED VIEW public.mv AS SELECT 1 AS x;" = inr v
    /\ schema v = "public" /\ signature v = "mv"
    /\ definition v = "SELECT 1 AS x" /\ with_data v = true.
Proof. destruct never; eexists; repeat split; vm_compute; reflexivity. Qed.

Lemma try_templates_none parse_fn never ts sql :
  (forall t, In t ts -> parse_fn t sql = None) ->
  try_templates never parse_fn ts sql = None.
Proof.
  induction ts as [|t ts IH]; intros H; simpl; [reflexivity|].
  rewrite (H t (or_introl eq_refl)). apply IH.
  intros t' Ht'. apply H. now right.
Qed.

(** C9: when no template matches the text left by
    [strip_terminating_semicolon], [from_sql] raises [SQLParseFailure] with
    that text between triple quotes in its message, whatever the matcher;
    no view is returned, and the outcome is a function of the input. *)
Theorem from_sql_no_template_matches
  (never : bool) (parse_fn : str -> str -> option Result) (sql : str) :
  (forall t, In t templates ->
             parse_fn t (strip_terminating_semicolon sql) = None) ->
  from_sql_with never parse_fn sql
  = inl (SQLParseFailure
           ("Failed to parse SQL into PGView " ++ TRIPLE_QUOTE
              ++ strip_terminating_semicolon sql ++ TRIPLE_QUOTE)).
Proof.
  intros H. unfold from_sql_with.
  now rewrite (try_templates_none parse_fn never templates _ H).
Qed.

Lemma from_sql_no_template_matches_witness :
  from_sql false "CREATE VIEW WITHOUT AS CLAUSE"
  = inl (SQLParseFailure
           ("Failed to parse SQL into PGView " ++ TRIPLE_QUOTE
              ++ "CREATE VIEW WITHOUT AS CLAUSE" ++ TRIPLE_QUOTE)).
Proof.
  apply (from_sql_no_template_matches false parse "CREATE VIEW WITHOUT AS CLAUSE").
  intros t Ht. simpl in Ht.
  repeat (destruct Ht as [<-|Ht]; [vm_compute; reflexivity|]).
  contradiction.
Defined.

(** ** Prefixes, [split] and [str_replace] *)

Lemma startswith_app old rest : startswith (old ++ rest) old = true.
Proof.
  induction old as [|a old IH]; simpl; [reflexivity|].
  now rewrite Ascii.eqb_refl, IH.
Qed.

Lemma startswith_inv s old :
  startswith s old = true -> s = old ++ skipn (length old) s.
Proof.
  revert s. induction old as [|a old IH]; intros s H.
  - reflexivity.
  - destruct s as [|c s]; [discriminate|]. simpl in H.
    apply andb_true_iff in H. destruct H as [Ha Hs].
    apply Ascii.eqb_eq in Ha. subst c. simpl. f_equal. now apply IH.
Qed.

Lemma split_from_skip sep k cur s :
  k <= length s -> split_from sep k cur s = split_from sep 0 cur (skipn k s).
Proof.
  revert k. induction s as [|c s IH]; intros k Hk.
  - simpl in Hk. assert (k = 0) as -> by lia. reflexivity.
  - destruct k as [|k]; [reflexivity|]. simpl in Hk. simpl skipn.
    cbn [split_from]. apply IH. lia.
Qed.

Lemma split_from_hit a sep cur rest :
  split_from (a :: sep) 0 cur ((a :: sep) ++ rest)
  = rev cur :: split_from (a :: sep) 0 [] rest.
Proof.
  cbn [app split_from]. rewrite (startswith_app (a :: sep) rest : startswith (a :: sep ++ rest) (a :: sep) = true).
  f_equal. cbn [length Nat.sub]. rewrite Nat.sub_0_r.
  rewrite split_from_skip by (rewrite length_app; lia).
  now rewrite skipn_app, skipn_all, Nat.sub_diag.
Qed.

Lemma split_from_miss sep cur c s :
  startswith (c :: s) sep = false ->
  split_from sep 0 cur (c :: s) = split_from sep 0 (c :: cur) s.
Proof. intros H. cbn [split_from]. now rewrite H. Qed.

Lemma replace_from_skip old new k s :
  k <= length s -> replace_from old new k s = replace_from old new 0 (skipn k s).
Proof.
  revert k. induction s as [|c s IH]; intros k Hk.
  - simpl in Hk. assert (k = 0) as -> by lia. reflexivity.
  - destruct k as [|k]; [reflexivity|]. simpl in Hk. simpl skipn.
    cbn [replace_from]. apply IH. lia.
Qed.

Lemma str_replace_nil old new : str_replace [] old new = [].
Proof. reflexivity. Qed.

Lemma str_replace_hit a old new rest :
  str_replace ((a :: old) ++ rest) (a :: old) new
  = new ++ str_replace rest (a :: old) new.
Proof.
  unfold str_replace. cbn [app replace_from].
  rewrite (startswith_app (a :: old) rest : startswith (a :: old ++ rest) (a :: old) = true).
  f_equal. cbn [length Nat.sub]. rewrite Nat.sub_0_r.
  rewrite replace_from_skip by (rewrite length_app; lia).
  now rewrite skipn_app, skipn_all, Nat.sub_diag.
Qed.

Lemma str_replace_miss old new c s :
  startswith (c :: s) old = false ->
  str_replace (c :: s) old new = c :: str_replace s old new.
Proof. intros H. unfold str_replace. cbn [replace_from]. now rewrite H. Qed.

Lemma split_from_not_nil sep k cur s : split_from sep k cur s <> [].
Proof.
  revert k cur. induction s as [|c s IH]; intros k cur; cbn [split_from];
    [discriminate|].
  destruct k; [|apply IH].
  destruct (startswith (c :: s) sep); [discriminate | apply IH].
Qed.

Lemma join_cons sep p l : l <> [] -> join sep (p :: l) = p ++ sep ++ join sep l.
Proof. destruct l; intros H; [now elim H | reflexivity]. Qed.

(** Joining the pieces of a split with the separator gives the text back. *)
Lemma join_split_from a sep s :
  forall cur, join (a :: sep) (split_from (a :: sep) 0 cur s) = rev cur ++ s.
Proof.
  remember (length s) as n eqn:Hn. revert s Hn.
  induction n as [n IH] using lt_wf_ind. intros s Hn cur.
  destruct s as [|c s].
  - simpl. now rewrite app_nil_r.
  - destruct (startswith (c :: s) (a :: sep)) eqn:E.
    + apply startswith_inv in E.
      set (rest := skipn (length (a :: sep)) (c :: s)) in *.
      assert (length rest < n) as Hlt.
      { subst n. rewrite E. rewrite length_app. simpl. lia. }
      rewrite E, split_from_hit.
      rewrite join_cons by apply split_from_not_nil.
      now rewrite (IH _ Hlt rest eq_refl []).
    + rewrite split_from_miss by exact E.
      assert (length s < n) as Hlt by (subst n; simpl; lia).
      rewrite (IH _ Hlt s eq_refl (c :: cur)). simpl. now rewrite <- app_assoc.
Qed.

(** No occurrence of [RETURNS void] overlaps another. *)
Lemma returns_void_occurrences_hit rest :
  occurrences (RETURNS_VOID ++ rest) RETURNS_VOID
  = S (occurrences rest RETURNS_VOID).
Proof. reflexivity. Qed.

Lemma length_split_returns_void s :
  forall cur,
    length (split_from RETURNS_VOID 0 cur s) = S (occurrences s RETURNS_VOID).
Proof.
  remember (length s) as n eqn:Hn. revert s Hn.
  induction n as [n IH] using lt_wf_ind. intros s Hn cur.
  destruct s as [|c s]; [reflexivity|].
  destruct (startswith (c :: s) RETURNS_VOID) eqn:E.
  - apply startswith_inv in E.
    set (rest := skipn (length RETURNS_VOID) (c :: s)) in *.
    assert (length rest < n) as Hlt.
    { subst n. rewrite E. rewrite length_app. simpl. lia. }
    rewrite E. rewrite returns_void_occurrences_hit.
    change RETURNS_VOID with ("R"%char :: list_ascii_of_string "ETURNS void") at 1 2 3.
    rewrite split_from_hit. cbn [length]. f_equal.
    apply (IH _ Hlt rest eq_refl []).
  - rewrite split_from_miss by exact E.
    assert (length s < n) as Hlt by (subst n; simpl; lia).
    rewrite (IH _ Hlt s eq_refl (c :: cur)).
    cbn [occurrences]. now rewrite E.
Qed.

Lemma str_eqb_eq a b : str_eqb a b = true <-> a = b.
Proof.
  revert b. induction a as [|x a IH]; intros [|y b]; simpl; split;
    try discriminate; try reflexivity.
  - intros H. apply andb_true_iff in H. destruct H as [H1 H2].
    apply Ascii.eqb_eq in H1. apply IH in H2. now subst.
  - intros H. injection H as -> ->. rewrite Ascii.eqb_refl. now apply IH.
Qed.

(** ** Splitting a function statement *)

Section FunctionStatementProperties.

Variables Node TypeName DropStmt OtherStmt : Type.
Variable query_to_pb : str -> (str + ParseResult Node TypeName DropStmt OtherStmt).
Variable pb_to_query : ParseResult Node TypeName DropStmt OtherStmt -> str.
Variable repr_stmt : RawStmt Node TypeName DropStmt OtherStmt -> str.
Variable sval : Node -> str.

Local Abbreviation get_stmt :=
  (_get_create_function_stmt Node TypeName DropStmt OtherStmt repr_stmt).
Local Abbreviation func_body :=
  (_get_func_body Node TypeName DropStmt OtherStmt query_to_pb pb_to_query
     repr_stmt).

Lemma get_stmt_not_single tree :
  single_routine tree = false -> exists msg, get_stmt tree = inl (ValueError msg).
Proof.
  unfold single_routine, get_stmt, _get_create_function_stmt.
  destruct (stmts _ _ _ _ tree) as [|s [|s' l]]; intros H.
  - eexists. reflexivity.
  - destruct (stmt _ _ _ _ s); try discriminate; eexists; reflexivity.
  - eexists. reflexivity.
Qed.

(** C1: once both statements have been parsed, [_get_func_body] is
    decided by the serialized spliced statement alone: a number of
    occurrences of [RETURNS void] other than one is a [ValueError]; with
    exactly one, the text is cut there, a text before it that (stripped,
    in lower case) is not the dummy header is a [ValueError], and
    otherwise the text after it is returned as it is. *)
Theorem get_func_body_spec func_sql tree c dummy_tree dummy :
  query_to_pb dummy_func_sql = inr dummy_tree ->
  get_stmt dummy_tree = inr dummy ->
  query_to_pb func_sql = inr tree ->
  get_stmt tree = inr c ->
  let func_str := pb_to_query (spliced _ _ _ _ tree c dummy) in
  (occurrences func_str RETURNS_VOID <> 1 ->
   exists msg, func_body func_sql = inl (ValueError msg))
  /\ (occurrences func_str RETURNS_VOID = 1 ->
      exists before after,
        func_str = before ++ RETURNS_VOID ++ after
        /\ (lower (strip before) <> DUMMY_HEADER ->
            exists msg, func_body func_sql = inl (ValueError msg))
        /\ (lower (strip before) = DUMMY_HEADER ->
            func_body func_sql = inr after)).
Proof.
  intros Hd Hds Ht Hs func_str.
  assert (func_body func_sql =
          match split func_str RETURNS_VOID with
          | [before; after] =>
              if negb (str_eqb (lower (strip before)) DUMMY_HEADER)
              then raise (ValueError ("Expected CREATE FUNCTION foo.bar() got " ++ before))
              else ret after
          | _ => raise (ValueError
                          ("Expected 1 instance of RETURNS void in statement: " ++ func_sql))
          end) as E.
  { unfold func_body, _get_func_body, parse_sql. rewrite Hd. cbn [bind ret].
    fold get_stmt. rewrite Hds. cbn [bind]. rewrite Ht. cbn [bind ret].
    fold get_stmt. rewrite Hs. reflexivity. }
  pose proof (length_split_returns_void func_str []) as Hlen.
  pose proof (join_split_from "R"%char (list_ascii_of_string "ETURNS void") func_str []) as Hjoin.
  change ("R"%char :: list_ascii_of_string "ETURNS void") with RETURNS_VOID in Hjoin.
  fold (split func_str RETURNS_VOID) in Hlen, Hjoin.
  rewrite E. clear E.
  destruct (split func_str RETURNS_VOID) as [|before [|after [|x l]]];
    cbn [length] in Hlen.
  - discriminate.
  - split; [intros _; eexists; reflexivity | intros H; lia].
  - split; [intros H; lia|]. intros _. exists before, after.
    split; [symmetry; exact Hjoin|].
    destruct (str_eqb (lower (strip before)) DUMMY_HEADER) eqn:Eq; cbn [negb].
    + apply str_eqb_eq in Eq. split; [intros H; contradiction | reflexivity].
    + split; [intros _; eexists; reflexivity|].
      intros H. apply str_eqb_eq in H. congruence.
  - split; [intros _; eexists; reflexivity | intros H; lia].
Qed.

(** C2, as the code has it: when the parsed tree is not one routine
    statement, [split_function] raises the [ValueError] of
    [_get_create_function_stmt]; only the codec's own parse error becomes
    [SQLParseFailure]. *)
Theorem split_function_not_single_routine sql tree :
  query_to_pb sql = inr tree ->
  single_routine tree = false ->
  exists msg,
    split_function Node TypeName DropStmt OtherStmt
      query_to_pb pb_to_query repr_stmt sval sql
    = inl (ValueError msg).
Proof.
  intros Ht Hs. destruct (get_stmt_not_single tree Hs) as [msg Hmsg].
  exists msg.
  unfold split_function, split_function_body,
    _get_func_signature_returns_and_type, parse_sql.
  rewrite Ht. cbn [bind ret]. fold get_stmt. rewrite Hmsg. reflexivity.
Qed.

End FunctionStatementProperties.

Lemma get_func_body_spec_witness :
  exists before after,
    OneFunction.pb_to_query
      (spliced str unit unit unit (OneFunction.tree_of OneFunction.SAMPLE)
         (OneFunction.stmt_of OneFunction.SAMPLE)
         (OneFunction.stmt_of dummy_func_sql))
    = before ++ RETURNS_VOID ++ after
    /\ (lower (strip before) = DUMMY_HEADER ->
        _get_func_body str unit unit unit
          OneFunction.query_to_pb OneFunction.pb_to_query (fun _ => [])
          OneFunction.SAMPLE
        = inr after).
Proof.
  destruct (get_func_body_spec str unit unit unit
              OneFunction.query_to_pb OneFunction.pb_to_query (fun _ => [])
              OneFunction.SAMPLE
              (OneFunction.tree_of OneFunction.SAMPLE)
              (OneFunction.stmt_of OneFunction.SAMPLE)
              (OneFunction.tree_of dummy_func_sql)
              (OneFunction.stmt_of dummy_func_sql)
              eq_refl eq_refl eq_refl eq_refl) as [_ H].
  destruct (H eq_refl) as [before [after [E [_ Hok]]]].
  exists before, after. split; assumption.
Defined.

Lemma split_function_not_single_routine_witness :
  exists msg, TwoStatements.split_function "SELECT 1; SELECT 2" = inl (ValueError msg).
Proof.
  apply (split_function_not_single_routine unit unit unit unit
           TwoStatements.query_to_pb TwoStatements.pb_to_query
           (fun _ => "SelectStmt" : str) (fun _ => [])
           "SELECT 1; SELECT 2" TwoStatements.tree);
    reflexivity.
Defined.

(** C2 fails as stated: a tree of two statements makes [split_function]
    raise [ValueError], not [SQLParseFailure]. *)
Lemma split_function_two_statements_value_error :
  TwoStatements.query_to_pb "SELECT 1; SELECT 2" = inr TwoStatements.tree
  /\ single_routine TwoStatements.tree = false
  /\ TwoStatements.split_function "SELECT 1; SELECT 2"
     = inl (ValueError "Expected 1 statement, got 2")
  /\ forall msg, TwoStatements.split_function "SELECT 1; SELECT 2"
                 <> inl (SQLParseFailure msg).
Proof.
  repeat split; try reflexivity. intros msg. vm_compute. discriminate.
Qed.

(** ** Holders and marks *)

Lemma hex_not_hyphen c : is_hex c = true -> is_hyphen c = false.
Proof.
  destruct c as [[] [] [] [] [] [] [] []]; try reflexivity; discriminate.
Qed.

Lemma shape_ok_alpha sh s :
  shape_ok sh s = true -> Forall (fun c => alpha c = true) s.
Proof.
  revert s. induction sh as [|b sh IH]; intros [|c s] Hs; simpl in Hs;
    try discriminate; constructor.
  - apply andb_true_iff in Hs. destruct Hs as [Hc _]. unfold alpha, is_hyphen.
    destruct b; rewrite Hc; [apply orb_true_r | reflexivity].
  - apply IH. apply andb_true_iff in Hs. apply Hs.
Qed.

Lemma shape_ok_hyphens sh s : shape_ok sh s = true -> map is_hyphen s = sh.
Proof.
  revert s. induction sh as [|b sh IH]; intros [|c s] Hs; simpl in Hs;
    try discriminate; [reflexivity|].
  apply andb_true_iff in Hs. destruct Hs as [Hc Hs]. simpl. f_equal.
  - destruct b; [exact Hc | now apply hex_not_hyphen].
  - now apply IH.
Qed.

Lemma shape_ok_length sh s : shape_ok sh s = true -> length s = length sh.
Proof.
  intros Hs. apply shape_ok_hyphens in Hs. rewrite <- Hs. now rewrite length_map.
Qed.

Lemma flatten_app hs l1 l2 : flatten hs (l1 ++ l2) = flatten hs l1 ++ flatten hs l2.
Proof. apply flat_map_app. Qed.

Lemma flatten_cons_C hs c ts : flatten hs (C c :: ts) = c :: flatten hs ts.
Proof. reflexivity. Qed.

Lemma flatten_cons_H hs m ts : flatten hs (H m :: ts) = hs m ++ flatten hs ts.
Proof. reflexivity. Qed.

Lemma flatten_map_C hs s : flatten hs (map C s) = s.
Proof. induction s as [|c s IH]; simpl; [reflexivity | now f_equal]. Qed.

(** A pattern that starts with a character outside the holders' alphabet
    does not start inside a run of alphabet characters. *)
Lemma str_replace_pass_alpha p rest a old new :
  Forall (fun c => alpha c = true) p -> alpha a = false ->
  str_replace (p ++ rest) (a :: old) new = p ++ str_replace rest (a :: old) new.
Proof.
  intros Hp Ha. induction Hp as [|c p Hc Hp IH]; [reflexivity|].
  simpl app. rewrite str_replace_miss.
  - now rewrite IH.
  - simpl. destruct (Ascii.eqb a c) eqn:E; [|reflexivity].
    apply Ascii.eqb_eq in E. congruence.
Qed.

Section Refinement.

Variable hs : mark -> str.
Hypothesis hs_shape : forall m, shape_ok uuid_shape (hs m) = true.

Lemma hs_alpha m : Forall (fun c => alpha c = true) (hs m).
Proof. eapply shape_ok_alpha, hs_shape. Qed.

Lemma hs_length m : length (hs m) = 36.
Proof. now rewrite (shape_ok_length _ _ (hs_shape m)). Qed.

Lemma hs_head m : exists c r, hs m = c :: r /\ alpha c = true.
Proof.
  pose proof (hs_length m) as Hl. pose proof (hs_alpha m) as Ha.
  destruct (hs m) as [|c r]; [discriminate|].
  exists c, r. split; [reflexivity|]. now inversion Ha.
Qed.

(** Replacing a two-character pattern by a holder. *)
Lemma str_replace_trep a b m ts :
  alpha a = false -> alpha b = false ->
  str_replace (flatten hs ts) [a; b] (hs m) = flatten hs (trep a b m ts).
Proof.
  intros Ha Hb. remember (length ts) as n eqn:Hn. revert ts Hn.
  induction n as [n IH] using lt_wf_ind. intros ts Hn.
  destruct ts as [|[x|j] ts'].
  - reflexivity.
  - rewrite flatten_cons_C. destruct ts' as [|[y|j] ts''].
    + simpl. rewrite str_replace_miss; [reflexivity|].
      simpl. now rewrite andb_false_r.
    + cbn [trep]. rewrite flatten_cons_C.
      destruct (Ascii.eqb x a) eqn:Ex; destruct (Ascii.eqb y b) eqn:Ey; cbn [andb].
      * apply Ascii.eqb_eq in Ex, Ey. subst x y.
        change (a :: b :: flatten hs ts'') with ([a; b] ++ flatten hs ts'').
        rewrite (str_replace_hit a [b] (hs m) (flatten hs ts'')).
        rewrite flatten_cons_H. f_equal.
        apply (IH (length ts'')); [subst n; simpl; lia | reflexivity].
      * rewrite str_replace_miss.
        -- rewrite flatten_cons_C, <- flatten_cons_C. f_equal.
           apply (IH (length (C y :: ts''))); [subst n; simpl; lia | reflexivity].
        -- simpl. rewrite (Ascii.eqb_sym b y), Ey. now rewrite andb_false_r.
      * rewrite str_replace_miss.
        -- rewrite flatten_cons_C, <- flatten_cons_C. f_equal.
           apply (IH (length (C y :: ts''))); [subst n; simpl; lia | reflexivity].
        -- simpl. now rewrite (Ascii.eqb_sym a x), Ex.
      * rewrite str_replace_miss.
        -- rewrite flatten_cons_C, <- flatten_cons_C. f_equal.
           apply (IH (length (C y :: ts''))); [subst n; simpl; lia | reflexivity].
        -- simpl. now rewrite (Ascii.eqb_sym a x), Ex.
    + cbn [trep]. rewrite str_replace_miss.
      * rewrite flatten_cons_C. f_equal.
        apply (IH (length (H j :: ts''))); [subst n; simpl; lia | reflexivity].
      * rewrite flatten_cons_H. destruct (hs_head j) as [c [r [-> Hc]]].
        simpl. destruct (Ascii.eqb b c) eqn:E.
        -- apply Ascii.eqb_eq in E. congruence.
        -- now rewrite andb_false_r.
  - cbn [trep]. rewrite !flatten_cons_H.
    rewrite str_replace_pass_alpha by (apply hs_alpha || exact Ha).
    f_equal. apply (IH (length ts')); [subst n; simpl; lia | reflexivity].
Qed.

(** Escaping the colons left. *)
Lemma str_replace_tesc ts :
  str_replace (flatten hs ts) [COLON] [BACKSLASH; COLON] = flatten hs (tesc ts).
Proof.
  induction ts as [|[x|j] ts IH].
  - reflexivity.
  - rewrite flatten_cons_C. unfold tesc. cbn [flat_map]. fold (tesc ts).
    destruct (Ascii.eqb x COLON) eqn:E.
    + apply Ascii.eqb_eq in E. subst x.
      change (COLON :: flatten hs ts) with ([COLON] ++ flatten hs ts).
      rewrite (str_replace_hit COLON [] [BACKSLASH; COLON] (flatten hs ts)).
      rewrite IH. reflexivity.
    + rewrite str_replace_miss.
      * rewrite IH. reflexivity.
      * cbn [startswith]. now rewrite (Ascii.eqb_sym COLON x), E.
  - rewrite flatten_cons_H. unfold tesc. cbn [flat_map]. fold (tesc ts).
    rewrite str_replace_pass_alpha by (apply hs_alpha || reflexivity).
    rewrite IH. reflexivity.
Qed.

End Refinement.

Lemma startswith_hyphens s p :
  startswith s p = true ->
  exists r, map is_hyphen s = map is_hyphen p ++ r.
Proof.
  intros H. apply startswith_inv in H.
  exists (map is_hyphen (skipn (length p) s)).
  rewrite <- map_app. f_equal. exact H.
Qed.

Lemma skipn_cons_nth (d : ascii) j (h : str) :
  j < length h -> skipn j h = nth j h d :: skipn (S j) h.
Proof.
  revert j. induction h as [|c h IH]; intros j Hj; simpl in Hj; [lia|].
  destruct j as [|j]; [reflexivity|]. simpl. apply IH. lia.
Qed.

Lemma firstn_add (A : Type) a b (l : list A) :
  firstn (a + b) l = firstn a l ++ firstn b (skipn a l).
Proof.
  revert l. induction a as [|a IH]; intros l; [reflexivity|].
  destruct l as [|x l]; simpl; [now rewrite firstn_nil | now rewrite IH].
Qed.

(** Two holders laid over each other with a shift of 1 to 27 disagree on
    where the hyphens are. *)
Lemma shape_shift j a b rest :
  shape_ok uuid_shape a = true -> shape_ok uuid_shape b = true ->
  1 <= j <= 27 ->
  startswith (a ++ rest) (skipn j b) = false.
Proof.
  intros Ha Hb Hj.
  destruct (startswith (a ++ rest) (skipn j b)) eqn:E; [|reflexivity].
  exfalso. apply startswith_hyphens in E. destruct E as [r Hr].
  rewrite map_app, <- skipn_map in Hr.
  rewrite (shape_ok_hyphens _ _ Ha), (shape_ok_hyphens _ _ Hb) in Hr.
  revert Hr. generalize (map is_hyphen rest). intros l Hr.
  do 28 (destruct j as [|j]; [try lia; vm_compute in Hr; discriminate Hr|]).
  lia.
Qed.

Lemma shape_shift_back k a b rest :
  shape_ok uuid_shape a = true -> shape_ok uuid_shape b = true ->
  1 <= k <= 27 ->
  startswith (skipn k a ++ rest) b = false.
Proof.
  intros Ha Hb Hk.
  destruct (startswith (skipn k a ++ rest) b) eqn:E; [|reflexivity].
  exfalso. apply startswith_hyphens in E. destruct E as [r Hr].
  rewrite map_app, <- skipn_map in Hr.
  rewrite (shape_ok_hyphens _ _ Ha), (shape_ok_hyphens _ _ Hb) in Hr.
  revert Hr. generalize (map is_hyphen rest). intros l Hr.
  do 28 (destruct k as [|k]; [try lia; vm_compute in Hr; discriminate Hr|]).
  lia.
Qed.

Lemma spells_app u v t :
  spells (u ++ v) t = true -> spells v (skipn (length u) t) = true.
Proof.
  revert t. induction u as [|a u IH]; intros t H; [exact H|].
  destruct t as [|[c|m] t]; simpl in H; try discriminate.
  apply andb_true_iff in H. simpl. apply IH, H.
Qed.

Lemma spells_nil_false w : w <> [] -> spells w [] = false.
Proof. destruct w; [congruence | reflexivity]. Qed.

Lemma unspelled_tail w t ts : unspelled w (t :: ts) = true -> unspelled w ts = true.
Proof. cbn [unspelled]. intros H. apply andb_true_iff in H. apply H. Qed.

Lemma unspelled_head w ts : w <> [] -> unspelled w ts = true -> spells w ts = false.
Proof.
  intros Hw H. destruct ts as [|t ts]; [now apply spells_nil_false|].
  cbn [unspelled] in H. apply andb_true_iff in H. destruct H as [H _].
  now apply negb_true_iff in H.
Qed.

Lemma unspelled_skipn w ts d :
  w <> [] -> unspelled w ts = true -> spells w (skipn d ts) = false.
Proof.
  intros Hw. revert ts. induction d as [|d IH]; intros ts H.
  - now apply unspelled_head.
  - destruct ts as [|t ts]; [now apply spells_nil_false|].
    simpl. apply IH. eapply unspelled_tail, H.
Qed.

Section Restore.

Variable hs : mark -> str.
Hypothesis hs_shape : forall m, shape_ok uuid_shape (hs m) = true.
Variable i : mark.

Lemma mid_length : length (mid (hs i)) = 16.
Proof.
  unfold mid. rewrite length_firstn, length_skipn, (hs_length hs hs_shape).
  reflexivity.
Qed.

Lemma mid_not_nil : mid (hs i) <> [].
Proof. pose proof mid_length as H. destruct (mid (hs i)); [discriminate | congruence]. Qed.

(** Matching the holder from its character [j] on, at a token boundary:
    up to character 23 the text is spelled by character tokens. *)
Lemma holder_prefix_spelled n j ts :
  j + n = 24 -> 1 <= j ->
  startswith (flatten hs ts) (skipn j (hs i)) = true ->
  spells (firstn n (skipn j (hs i))) ts = true.
Proof.
  revert j ts. induction n as [|n IH]; intros j ts Hjn Hj H; [reflexivity|].
  rewrite (skipn_cons_nth SPACE j (hs i)) in H |- *
    by (rewrite (hs_length hs hs_shape); lia).
  destruct ts as [|[c|m] ts].
  - discriminate.
  - rewrite flatten_cons_C in H. cbn [startswith] in H.
    apply andb_true_iff in H. destruct H as [Hc H].
    cbn [firstn spells]. rewrite Hc. cbn [andb].
    apply IH; [lia | lia | exact H].
  - rewrite flatten_cons_H in H.
    rewrite <- (skipn_cons_nth SPACE j (hs i)) in H
      by (rewrite (hs_length hs hs_shape); lia).
    rewrite shape_shift in H; [discriminate | apply hs_shape | apply hs_shape | lia].
Qed.

(** Entered with 1 to 8 characters of the holder already matched, a
    match would spell the holder's middle in character tokens. *)
Lemma no_match_from_offset a ts :
  1 <= a <= 8 -> unspelled (mid (hs i)) ts = true ->
  startswith (flatten hs ts) (skipn a (hs i)) = false.
Proof.
  intros Ha Hu.
  destruct (startswith (flatten hs ts) (skipn a (hs i))) eqn:E; [|reflexivity].
  exfalso.
  apply (holder_prefix_spelled (24 - a) a) in E; [|lia|lia].
  replace (24 - a) with ((8 - a) + 16) in E by lia.
  rewrite firstn_add, skipn_skipn in E.
  replace (8 - a + a) with 8 in E by lia.
  apply spells_app in E. fold (mid (hs i)) in E.
  rewrite (unspelled_skipn _ _ _ mid_not_nil Hu) in E. discriminate.
Qed.

End Restore.

Lemma str_replace_hit_app old new rest :
  old <> [] -> str_replace (old ++ rest) old new = new ++ str_replace rest old new.
Proof. destruct old as [|a old]; [congruence | intros _; apply str_replace_hit]. Qed.

Lemma startswith_drop p rest h :
  startswith (p ++ rest) h = true -> length p <= length h ->
  startswith rest (skipn (length p) h) = true.
Proof.
  revert h. induction p as [|c p IH]; intros h H Hl; [exact H|].
  destruct h as [|a h]; [simpl in Hl; lia|].
  simpl in H. apply andb_true_iff in H. simpl. apply IH; [apply H | simpl in Hl; lia].
Qed.

Lemma startswith_same_length p rest h :
  length p = length h -> startswith (p ++ rest) h = true -> p = h.
Proof.
  revert h. induction p as [|c p IH]; intros [|a h] Hl H; try discriminate;
    [reflexivity|].
  simpl in H. apply andb_true_iff in H. destruct H as [Hc H].
  apply Ascii.eqb_eq in Hc. subst. f_equal. apply IH; [simpl in Hl; lia | exact H].
Qed.

(** A stretch of text in which the pattern starts nowhere is kept. *)
Lemma str_replace_pass p rest old new :
  (forall k, k < length p -> startswith (skipn k p ++ rest) old = false) ->
  str_replace (p ++ rest) old new = p ++ str_replace rest old new.
Proof.
  induction p as [|c p IH]; intros H; [reflexivity|].
  simpl app. rewrite str_replace_miss.
  - f_equal. apply IH. intros k Hk. apply (H (S k)). simpl. lia.
  - apply (H 0). simpl. lia.
Qed.

Section RestoreHolder.

Variable hs : mark -> str.
Hypothesis hs_shape : forall m, shape_ok uuid_shape (hs m) = true.
Variable i : mark.
Hypothesis hs_distinct : forall j, j <> i -> hs j <> hs i.

Lemma hs_not_nil : hs i <> [].
Proof.
  pose proof (hs_length hs hs_shape i) as H.
  destruct (hs i); [discriminate | congruence].
Qed.

Lemma mark_eqb_eq a b : mark_eqb a b = true <-> a = b.
Proof. destruct a, b; simpl; split; congruence. Qed.

(** Replacing the holder of [i] by [new] touches the marks [i] and
    nothing else, provided the character tokens nowhere spell the
    holder's middle. *)
Lemma str_replace_restore new ts :
  unspelled (mid (hs i)) ts = true ->
  str_replace (flatten hs ts) (hs i) new = flatten hs (tsubst i new ts).
Proof.
  induction ts as [|[c|j] ts IH]; intros Hu.
  - reflexivity.
  - pose proof (unspelled_tail _ _ _ Hu) as Hu'.
    rewrite flatten_cons_C. rewrite str_replace_miss.
    + rewrite (IH Hu'). reflexivity.
    + destruct (startswith (c :: flatten hs ts) (hs i)) eqn:E; [|reflexivity].
      exfalso.
      assert (hs i = nth 0 (hs i) SPACE :: skipn 1 (hs i)) as E0.
      { apply (skipn_cons_nth SPACE 0 (hs i)).
        rewrite (hs_length hs hs_shape). lia. }
      rewrite E0 in E. cbn [startswith] in E. apply andb_true_iff in E. destruct E as [_ E].
      rewrite (no_match_from_offset hs hs_shape i 1 ts) in E;
        [discriminate | lia | exact Hu'].
  - pose proof (unspelled_tail _ _ _ Hu) as Hu'.
    rewrite flatten_cons_H. unfold tsubst. cbn [flat_map]. fold (tsubst i new ts).
    destruct (mark_eqb j i) eqn:Ej.
    + apply mark_eqb_eq in Ej. subst j.
      rewrite str_replace_hit_app by apply hs_not_nil.
      rewrite flatten_app, flatten_map_C, (IH Hu'). reflexivity.
    + assert (j <> i) as Hji by (intros ->; destruct i; discriminate).
      rewrite str_replace_pass.
      * rewrite (IH Hu'). reflexivity.
      * intros k Hk. rewrite (hs_length hs hs_shape) in Hk.
        destruct (startswith (skipn k (hs j) ++ flatten hs ts) (hs i)) eqn:E;
          [|reflexivity].
        exfalso.
        destruct (Nat.eq_dec k 0) as [->|Hk0].
        { change (skipn 0 (hs j)) with (hs j) in E.
          apply startswith_same_length in E.
          - now apply (hs_distinct j).
          - now rewrite !(hs_length hs hs_shape). }
        destruct (Nat.le_gt_cases k 27) as [Hs|Hs].
        { rewrite shape_shift_back in E;
            [discriminate | apply hs_shape | apply hs_shape | lia]. }
        apply startswith_drop in E.
        2:{ rewrite length_skipn, !(hs_length hs hs_shape). lia. }
        rewrite length_skipn, (hs_length hs hs_shape) in E.
        rewrite (no_match_from_offset hs hs_shape i (36 - k) ts) in E;
          [discriminate | lia | exact Hu'].
Qed.

End RestoreHolder.

(** ** Words that stay unspelled *)

Lemma trep_cons a b m t ts :
  trep a b m (t :: ts) = t :: trep a b m ts
  \/ exists ts', t = C a /\ ts = C b :: ts'
                /\ trep a b m (t :: ts) = H m :: trep a b m ts'.
Proof.
  destruct t as [x|j]; [|left; reflexivity].
  destruct ts as [|[y|j] ts']; try (left; reflexivity).
  cbn [trep].
  destruct (Ascii.eqb x a) eqn:Ex; destruct (Ascii.eqb y b) eqn:Ey; cbn [andb];
    try (left; reflexivity).
  apply Ascii.eqb_eq in Ex, Ey. subst. right. exists ts'. auto.
Qed.

Lemma spells_H w m ts : w <> [] -> spells w (H m :: ts) = false.
Proof. destruct w; [congruence | reflexivity]. Qed.

Lemma spells_trep a b m w ts :
  spells w (trep a b m ts) = true -> spells w ts = true.
Proof.
  revert ts. induction w as [|c w IH]; intros ts H; [reflexivity|].
  destruct ts as [|t ts]; [discriminate|].
  destruct (trep_cons a b m t ts) as [E|[ts' [_ [_ E]]]]; rewrite E in H.
  - destruct t as [x|j]; [|discriminate]. cbn [spells] in H |- *.
    apply andb_true_iff in H. destruct H as [Hc H].
    rewrite Hc. cbn [andb]. now apply IH.
  - discriminate.
Qed.

Lemma unspelled_trep a b m w ts :
  w <> [] -> unspelled w ts = true -> unspelled w (trep a b m ts) = true.
Proof.
  intros Hw. remember (length ts) as n eqn:Hn. revert ts Hn.
  induction n as [n IH] using lt_wf_ind. intros ts Hn Hu.
  destruct ts as [|t ts]; [reflexivity|].
  pose proof (unspelled_tail _ _ _ Hu) as Hu'.
  destruct (trep_cons a b m t ts) as [E|[ts' [_ [Ets E]]]].
  - cbn [unspelled].
    assert (unspelled w (trep a b m ts) = true) as IH'
      by (apply (IH (length ts)); [subst n; simpl; lia | reflexivity | exact Hu']).
    destruct (trep a b m (t :: ts)) as [|t0 l0] eqn:E0; [reflexivity|].
    cbn [unspelled]. injection E as -> ->. rewrite IH', andb_true_r.
    apply negb_true_iff.
    destruct (spells w (t :: trep a b m ts)) eqn:Es; [|reflexivity].
    rewrite <- E0 in Es. apply spells_trep in Es.
    now rewrite (unspelled_head _ _ Hw Hu) in Es.
  - rewrite E. cbn [unspelled]. rewrite (spells_H _ _ _ Hw). cbn [negb andb].
    subst ts. apply (IH (length ts')); [subst n; simpl; lia | reflexivity|].
    eapply unspelled_tail, Hu'.
Qed.

Lemma spells_other w x ts :
  holder_word w -> alpha x = false -> spells w (C x :: ts) = false.
Proof.
  intros [Hw Ha] Hx. destruct w as [|c w]; [congruence|].
  cbn [spells]. destruct (Ascii.eqb c x) eqn:E; [|reflexivity].
  apply Ascii.eqb_eq in E. subst. inversion Ha. congruence.
Qed.

Lemma unspelled_others w x ts :
  holder_word w -> Forall (fun c => alpha c = false) x ->
  unspelled w ts = true -> unspelled w (map C x ++ ts) = true.
Proof.
  intros Hw Hx Hu. induction Hx as [|c x Hc Hx IH]; [exact Hu|].
  cbn [map app unspelled]. rewrite IH, andb_true_r.
  apply negb_true_iff. now apply spells_other.
Qed.

Lemma spells_tesc w ts :
  holder_word w -> spells w (tesc ts) = true -> spells w ts = true.
Proof.
  intros Hw. revert ts.
  assert (forall u, Forall (fun c => alpha c = true) u ->
            forall ts, (u <> [] -> holder_word u) ->
                       spells u (tesc ts) = true -> spells u ts = true) as G.
  { intros u Hu. induction Hu as [|c u Hc Hu IH]; intros ts Hh H; [reflexivity|].
    destruct ts as [|[x|j] ts]; [discriminate| |discriminate].
    unfold tesc in H. cbn [flat_map] in H. fold (tesc ts) in H.
    destruct (Ascii.eqb x COLON) eqn:Ex.
    - cbn [app] in H. rewrite spells_other in H;
        [discriminate | apply Hh; discriminate | reflexivity].
    - cbn [app spells] in H |- *. apply andb_true_iff in H. destruct H as [H1 H2].
      rewrite H1. cbn [andb]. apply IH; [|exact H2].
      intros Hne. split; [exact Hne | exact Hu]. }
  intros ts. apply G; [apply Hw | intros _; exact Hw].
Qed.

Lemma unspelled_tesc w ts :
  holder_word w -> unspelled w ts = true -> unspelled w (tesc ts) = true.
Proof.
  intros Hw. induction ts as [|t ts IH]; intros Hu; [reflexivity|].
  pose proof (unspelled_tail _ _ _ Hu) as Hu'.
  pose proof (unspelled_head _ _ (proj1 Hw) Hu) as Hh.
  destruct (spells w (tesc (t :: ts))) eqn:Es.
  { apply (spells_tesc _ _ Hw) in Es. congruence. }
  unfold tesc in Es |- *. cbn [flat_map] in Es |- *. fold (tesc ts) in Es |- *.
  destruct t as [x|j]; [destruct (Ascii.eqb x COLON)|]; cbn [app] in Es |- *.
  - cbn [unspelled]. rewrite Es, (IH Hu'). cbn [negb andb].
    rewrite spells_other; [reflexivity | exact Hw | reflexivity].
  - cbn [unspelled]. now rewrite Es, (IH Hu').
  - cbn [unspelled]. now rewrite Es, (IH Hu').
Qed.

Lemma spells_tsubst w i x ts :
  holder_word w -> x <> [] -> Forall (fun c => alpha c = false) x ->
  spells w (tsubst i x ts) = true -> spells w ts = true.
Proof.
  intros Hw Hne Hx. revert ts.
  assert (forall u, Forall (fun c => alpha c = true) u ->
            forall ts, (u <> [] -> holder_word u) ->
                       spells u (tsubst i x ts) = true -> spells u ts = true) as G.
  { intros u Hu. induction Hu as [|c u Hc Hu IH]; intros ts Hh H; [reflexivity|].
    destruct ts as [|[y|j] ts]; [discriminate| |].
    - unfold tsubst in H. cbn [flat_map] in H. fold (tsubst i x ts) in H.
      cbn [app spells] in H |- *. apply andb_true_iff in H. destruct H as [H1 H2].
      rewrite H1. cbn [andb]. apply IH; [|exact H2].
      intros Hn. split; [exact Hn | exact Hu].
    - exfalso. unfold tsubst in H. cbn [flat_map] in H. fold (tsubst i x ts) in H.
      destruct (mark_eqb j i); [|discriminate].
      destruct x as [|x0 x]; [congruence|].
      cbn [map app] in H. rewrite spells_other in H;
        [discriminate | apply Hh; discriminate | now inversion Hx]. }
  intros ts. apply G; [apply Hw | intros _; exact Hw].
Qed.

Lemma unspelled_tsubst w i x ts :
  holder_word w -> x <> [] -> Forall (fun c => alpha c = false) x ->
  unspelled w ts = true -> unspelled w (tsubst i x ts) = true.
Proof.
  intros Hw Hne Hx. induction ts as [|t ts IH]; intros Hu; [reflexivity|].
  pose proof (unspelled_tail _ _ _ Hu) as Hu'.
  pose proof (unspelled_head _ _ (proj1 Hw) Hu) as Hh.
  destruct (spells w (tsubst i x (t :: ts))) eqn:Es.
  { apply (spells_tsubst w i x _ Hw Hne Hx) in Es. congruence. }
  unfold tsubst in Es |- *. cbn [flat_map] in Es |- *.
  fold (tsubst i x ts) in Es |- *.
  destruct t as [y|j]; [|destruct (mark_eqb j i)]; cbn [app] in Es |- *.
  - cbn [unspelled]. now rewrite Es, (IH Hu').
  - apply unspelled_others; [exact Hw | exact Hx | exact (IH Hu')].
  - cbn [unspelled]. now rewrite Es, (IH Hu').
Qed.

Lemma spells_map_C w s : spells w (map C s) = startswith s w.
Proof.
  revert s. induction w as [|a w IH]; intros s; [reflexivity|].
  destruct s as [|c s]; [reflexivity|]. simpl. now rewrite IH.
Qed.

Lemma unspelled_map_C w s : contains s w = false -> unspelled w (map C s) = true.
Proof.
  induction s as [|c s IH]; intros H; [reflexivity|].
  cbn [contains] in H. apply orb_false_iff in H. destruct H as [H1 H2].
  cbn [map unspelled]. rewrite (IH H2), andb_true_r.
  apply negb_true_iff. change (C c :: map C s) with (map C (c :: s)).
  now rewrite spells_map_C.
Qed.

Lemma Forall_firstn (P : ascii -> Prop) a (l : str) :
  Forall P l -> Forall P (firstn a l).
Proof.
  intros H. revert a. induction H as [|x l Hx H IH]; intros [|a]; simpl;
    constructor; auto.
Qed.

Lemma Forall_skipn (P : ascii -> Prop) b (l : str) :
  Forall P l -> Forall P (skipn b l).
Proof.
  intros H. revert b. induction H as [|x l Hx H IH]; intros [|b]; simpl;
    try constructor; auto.
Qed.

Lemma mid_holder_word h : shape_ok uuid_shape h = true -> holder_word (mid h).
Proof.
  intros Hs. split.
  - assert (length (mid h) = 16) as Hl.
    { unfold mid. rewrite length_firstn, length_skipn, (shape_ok_length _ _ Hs).
      reflexivity. }
    destruct (mid h); [discriminate | congruence].
  - apply Forall_firstn, Forall_skipn. eapply shape_ok_alpha, Hs.
Qed.

Lemma tsubst_app i x l1 l2 :
  tsubst i x (l1 ++ l2) = tsubst i x l1 ++ tsubst i x l2.
Proof. apply flat_map_app. Qed.

(** After the three holders have been put back no mark is left. *)
Lemma flatten_restored hs ts :
  flatten hs (tsubst M1 "::" (tsubst M2 ":=" (tsubst M3 [BACKSLASH; COLON] ts)))
  = expand ts.
Proof.
  induction ts as [|t ts IH]; [reflexivity|].
  change (t :: ts) with ([t] ++ ts). unfold expand.
  rewrite !tsubst_app, !flatten_app. fold (expand ts). rewrite IH. f_equal.
  destruct t as [c|[]]; reflexivity.
Qed.

Lemma flatten_restored_1 hs ts :
  (forall m, In (H m) ts -> m = M1) ->
  flatten hs (tsubst M1 "::" ts) = expand ts.
Proof.
  induction ts as [|t ts IH]; intros Hm; [reflexivity|].
  change (t :: ts) with ([t] ++ ts). unfold expand.
  rewrite !tsubst_app, !flatten_app. fold (expand ts). rewrite IH.
  - f_equal. destruct t as [c|m]; [reflexivity|].
    rewrite (Hm m (or_introl eq_refl)). reflexivity.
  - intros m Hin. apply Hm. now right.
Qed.

Lemma trep_marks a b m ts m' :
  In (H m') (trep a b m ts) -> m' = m \/ In (H m') ts.
Proof.
  remember (length ts) as n eqn:Hn. revert ts Hn.
  induction n as [n IH] using lt_wf_ind. intros ts Hn Hin.
  destruct ts as [|t ts]; [contradiction|].
  destruct (trep_cons a b m t ts) as [E|[ts' [_ [Ets E]]]]; rewrite E in Hin.
  - destruct Hin as [<-|Hin]; [right; now left|].
    apply (IH (length ts)) in Hin; [|subst n; simpl; lia | reflexivity].
    destruct Hin; [now left | right; now right].
  - destruct Hin as [Hin|Hin]; [left; congruence|].
    apply (IH (length ts')) in Hin; [|subst; simpl; lia | reflexivity].
    destruct Hin; [now left | right; subst ts; right; now right].
Qed.

Lemma tesc_marks ts m : In (H m) (tesc ts) -> In (H m) ts.
Proof.
  induction ts as [|[c|j] ts IH]; intros Hin; [contradiction| |].
  - unfold tesc in Hin. cbn [flat_map] in Hin. fold (tesc ts) in Hin.
    right. apply IH. destruct (Ascii.eqb c COLON); cbn [app] in Hin.
    + destruct Hin as [|[|]]; try discriminate. assumption.
    + destruct Hin as [|]; try discriminate. assumption.
  - unfold tesc in Hin. cbn [flat_map] in Hin. fold (tesc ts) in Hin.
    destruct Hin as [Hin|Hin]; [now left | right; now apply IH].
Qed.

Lemma map_C_marks s m : ~ In (H m) (map C s).
Proof. induction s as [|c s IH]; simpl; [tauto | intros [|]; [discriminate | tauto]]. Qed.

(** [escape_colon_for_plpgsql] does what the marks say, for holders of the
    UUID form that differ and whose middles are not in the text. *)
Theorem escape_colon_for_plpgsql_ideal h1 h2 h3 sql :
  shape_ok uuid_shape h1 = true -> shape_ok uuid_shape h2 = true ->
  shape_ok uuid_shape h3 = true ->
  h1 <> h2 -> h1 <> h3 -> h2 <> h3 ->
  contains sql (mid h1) = false -> contains sql (mid h2) = false ->
  contains sql (mid h3) = false ->
  escape_colon_for_plpgsql h1 h2 h3 sql = ideal_plpgsql sql.
Proof.
  intros S1 S2 S3 D12 D13 D23 N1 N2 N3.
  set (hs := holders3 h1 h2 h3).
  assert (forall m, shape_ok uuid_shape (hs m) = true) as Hs by (intros []; assumption).
  assert (forall i j, j <> i -> hs j <> hs i) as Hd
    by (intros [] []; simpl; congruence).
  unfold escape_colon_for_plpgsql, ideal_plpgsql, marked_plpgsql.
  set (t1 := trep COLON COLON M1 (map C sql)).
  set (t2 := trep COLON EQUALS M2 t1).
  set (t3 := trep BACKSLASH COLON M3 t2).
  assert (forall h, shape_ok uuid_shape h = true -> contains sql (mid h) = false ->
                    unspelled (mid h) (tesc t3) = true) as U4.
  { intros h Sh Nh. pose proof (mid_holder_word h Sh) as Hw.
    apply unspelled_tesc; [exact Hw|].
    repeat apply unspelled_trep; try apply Hw. now apply unspelled_map_C. }
  rewrite <- (flatten_map_C hs sql) at 1.
  change (list_ascii_of_string "::") with [COLON; COLON].
  change h1 with (hs M1). rewrite (str_replace_trep hs Hs) by reflexivity.
  change (list_ascii_of_string ":=") with [COLON; EQUALS].
  change h2 with (hs M2). rewrite (str_replace_trep hs Hs) by reflexivity.
  change h3 with (hs M3). rewrite (str_replace_trep hs Hs) by reflexivity.
  change (list_ascii_of_string ":") with [COLON].
  rewrite (str_replace_tesc hs Hs).
  fold t1 t2 t3.
  rewrite (str_replace_restore hs Hs M3 (Hd M3)) by (apply U4; assumption).
  rewrite (str_replace_restore hs Hs M2 (Hd M2)).
  2:{ pose proof (mid_holder_word h2 S2) as Hw.
      apply unspelled_tsubst; [exact Hw | discriminate | | apply U4; assumption].
      repeat constructor. }
  rewrite (str_replace_restore hs Hs M1 (Hd M1)).
  2:{ pose proof (mid_holder_word h1 S1) as Hw.
      apply unspelled_tsubst; [exact Hw | discriminate | repeat constructor |].
      apply unspelled_tsubst; [exact Hw | discriminate | repeat constructor |].
      apply U4; assumption. }
  change [COLON; EQUALS] with (list_ascii_of_string ":=").
  change [COLON; COLON] with (list_ascii_of_string "::").
  apply flatten_restored.
Qed.

Lemma other_holder h :
  exists g, shape_ok uuid_shape g = true /\ g <> h.
Proof.
  destruct (list_eq_dec ascii_dec h UUID_A) as [->|Hne].
  - exists UUID_B. split; [reflexivity | discriminate].
  - exists UUID_A. split; [reflexivity | congruence].
Qed.

(** [escape_colon_for_sql] does what the marks say, for a holder of the
    UUID form whose middle is not in the text. *)
Theorem escape_colon_for_sql_ideal holder sql :
  shape_ok uuid_shape holder = true ->
  contains sql (mid holder) = false ->
  escape_colon_for_sql holder sql = ideal_sql sql.
Proof.
  intros S1 N1. destruct (other_holder holder) as [g [Sg Dg]].
  set (hs := holders3 holder g g).
  assert (forall m, shape_ok uuid_shape (hs m) = true) as Hs by (intros []; assumption).
  assert (forall j, j <> M1 -> hs j <> hs M1) as Hd
    by (intros []; simpl; congruence).
  unfold escape_colon_for_sql, ideal_sql, marked_sql.
  set (t1 := trep COLON COLON M1 (map C sql)).
  rewrite <- (flatten_map_C hs sql) at 1.
  change (list_ascii_of_string "::") with [COLON; COLON].
  change holder with (hs M1). rewrite (str_replace_trep hs Hs) by reflexivity.
  change (list_ascii_of_string ":") with [COLON].
  rewrite (str_replace_tesc hs Hs). fold t1.
  rewrite (str_replace_restore hs Hs M1 Hd).
  - change [COLON; COLON] with (list_ascii_of_string "::").
    apply flatten_restored_1. intros m Hin.
    apply tesc_marks, trep_marks in Hin. destruct Hin as [|Hin]; [assumption|].
    now apply map_C_marks in Hin.
  - pose proof (mid_holder_word holder S1) as Hw.
    apply unspelled_tesc; [exact Hw|].
    apply unspelled_trep; [apply Hw|]. now apply unspelled_map_C.
Qed.

Lemma is_uuid4_shape h : is_uuid4 h = true -> shape_ok uuid_shape h = true.
Proof.
  unfold is_uuid4. intros H. apply andb_true_iff in H. destruct H as [H _].
  apply andb_true_iff in H. apply H.
Qed.

Lemma mid_head h :
  shape_ok uuid_shape h = true -> exists r, mid h = HYPHEN :: r.
Proof.
  intros Hs. pose proof (shape_ok_hyphens _ _ Hs) as Hh.
  assert (map is_hyphen (mid h) = firstn 16 (skipn 8 uuid_shape)) as Hm.
  { unfold mid. now rewrite <- firstn_map, <- skipn_map, Hh. }
  destruct (mid h) as [|c r]; [discriminate|].
  exists r. f_equal.
  change (firstn 16 (skipn 8 uuid_shape))
    with (true :: firstn 15 (skipn 9 uuid_shape)) in Hm.
  cbn [map] in Hm. injection Hm as Hc _.
  unfold is_hyphen in Hc. now apply Ascii.eqb_eq in Hc.
Qed.

Lemma contains_absent_head a r s : ~ In a s -> contains s (a :: r) = false.
Proof.
  induction s as [|c s IH]; intros H; [reflexivity|].
  cbn [contains startswith]. rewrite IH by (intros Hin; apply H; now right).
  destruct (Ascii.eqb a c) eqn:E; [|reflexivity].
  apply Ascii.eqb_eq in E. subst. exfalso. apply H. now left.
Qed.

(** A text without hyphens holds the middle of no holder. *)
Lemma no_hyphen_no_mid h s :
  shape_ok uuid_shape h = true -> ~ In HYPHEN s -> contains s (mid h) = false.
Proof.
  intros Hs Hn. destruct (mid_head h Hs) as [r ->].
  now apply contains_absent_head.
Qed.

(** *** How [trep] goes through a list *)

Lemma trep_keep a b m x ts :
  Ascii.eqb x a && hd_is b ts = false ->
  trep a b m (C x :: ts) = C x :: trep a b m ts.
Proof.
  destruct ts as [|[y|j] ts]; cbn [trep hd_is]; try reflexivity.
  intros ->. reflexivity.
Qed.

Lemma trep_hit a b m ts :
  trep a b m (C a :: C b :: ts) = H m :: trep a b m ts.
Proof. cbn [trep]. now rewrite !Ascii.eqb_refl. Qed.

Lemma trep_H a b m j ts : trep a b m (H j :: ts) = H j :: trep a b m ts.
Proof. reflexivity. Qed.

(** The two cases of [trep] on a non-empty list. *)
Lemma trep_cases a b m t ts :
  (trep a b m (t :: ts) = t :: trep a b m ts
   /\ (t = C a -> hd_is b ts = false))
  \/ exists ts', t = C a /\ ts = C b :: ts'
                /\ trep a b m (t :: ts) = H m :: trep a b m ts'.
Proof.
  destruct t as [x|j]; [|left; split; [reflexivity | discriminate]].
  destruct (Ascii.eqb x a && hd_is b ts) eqn:E.
  - right. apply andb_true_iff in E. destruct E as [Ex Ey].
    apply Ascii.eqb_eq in Ex. subst x.
    destruct ts as [|[y|j] ts']; try discriminate.
    cbn [hd_is] in Ey. apply Ascii.eqb_eq in Ey. subst y.
    exists ts'. split; [reflexivity|]. split; [reflexivity | apply trep_hit].
  - left. split; [now apply trep_keep|].
    intros Hx. injection Hx as ->. now rewrite Ascii.eqb_refl in E.
Qed.

(** The head after [trep] is the old head or the new mark. *)
Lemma hd_ok_trep q a b m ts :
  hd_ok q ts = true -> (q (H m) = true \/ hd_is a ts = false) ->
  hd_ok q (trep a b m ts) = true.
Proof.
  intros Hq Hm. destruct ts as [|t ts]; [reflexivity|].
  destruct (trep_cases a b m t ts) as [[E _]|[ts' [Et [_ E]]]]; rewrite E.
  - exact Hq.
  - cbn [hd_ok]. destruct Hm as [Hm|Hm]; [exact Hm|].
    subst t. cbn [hd_is] in Hm. now rewrite Ascii.eqb_refl in Hm.
Qed.

Lemma follows_tail p q t ts : follows p q (t :: ts) = true -> follows p q ts = true.
Proof. cbn [follows]. intros H. apply andb_true_iff in H. apply H. Qed.

Lemma follows_head p q t ts :
  follows p q (t :: ts) = true -> p t = true -> hd_ok q ts = true.
Proof.
  cbn [follows]. intros H Hp. apply andb_true_iff in H. destruct H as [H _].
  now rewrite Hp in H.
Qed.

(** *** The colons left by each replacement *)

(** After the double colons are marked, a colon left is followed by a
    character that is no colon. *)
Lemma follows_trep_colon s :
  follows is_colon plain (trep COLON COLON M1 (map C s)) = true.
Proof.
  remember (length s) as n eqn:Hn. revert s Hn.
  induction n as [n IH] using lt_wf_ind. intros s Hn.
  destruct s as [|c s]; [reflexivity|]. cbn [map].
  destruct (trep_cases COLON COLON M1 (C c) (map C s)) as [[E Hk]|[ts' [Et [Ets E]]]];
    rewrite E.
  - cbn [follows]. rewrite (IH (length s)) by (subst n; simpl; lia || reflexivity).
    rewrite andb_true_r. cbn [is_colon].
    destruct (Ascii.eqb c COLON) eqn:Ec; [|reflexivity].
    apply Ascii.eqb_eq in Ec. subst c. specialize (Hk eq_refl).
    apply hd_ok_trep; [|right; exact Hk].
    destruct s as [|y s]; [reflexivity|]. cbn [map hd_is] in Hk.
    cbn [map hd_ok plain]. now rewrite Hk.
  - destruct s as [|y s]; [discriminate|]. cbn [map] in Ets.
    injection Ets as Ey Ets. subst ts'. cbn [follows is_colon andb].
    apply (IH (length s)); [subst n; simpl; lia | reflexivity].
Qed.

Lemma hd_ok_weaken (q q' : tok -> bool) ts :
  (forall t, q t = true -> q' t = true) -> hd_ok q ts = true -> hd_ok q' ts = true.
Proof. intros Hq. destruct ts; [reflexivity | apply Hq]. Qed.

(** After the assignments are marked too, it is no equals sign either. *)
Lemma follows_trep_assign ts :
  follows is_colon plain ts = true ->
  follows is_colon plain_no_eq (trep COLON EQUALS M2 ts) = true.
Proof.
  remember (length ts) as n eqn:Hn. revert ts Hn.
  induction n as [n IH] using lt_wf_ind. intros ts Hn Hf.
  destruct ts as [|t ts]; [reflexivity|].
  pose proof (follows_tail _ _ _ _ Hf) as Hf'.
  destruct (trep_cases COLON EQUALS M2 t ts) as [[E Hk]|[ts' [Et [Ets E]]]];
    rewrite E.
  - cbn [follows].
    rewrite (IH (length ts)) by (subst n; simpl; lia || reflexivity || exact Hf').
    rewrite andb_true_r.
    destruct (is_colon t) eqn:Ec; [|reflexivity].
    pose proof (follows_head _ _ _ _ Hf Ec) as Hh.
    destruct t as [c|j]; [|discriminate]. cbn [is_colon] in Ec.
    apply Ascii.eqb_eq in Ec. subst c. specialize (Hk eq_refl).
    destruct ts as [|[y|j] ts]; [reflexivity| |discriminate].
    cbn [hd_ok plain hd_is] in Hh, Hk. apply negb_true_iff in Hh.
    rewrite trep_keep by (now rewrite Hh).
    cbn [hd_ok plain_no_eq]. now rewrite Hh, Hk.
  - subst t ts. cbn [follows is_colon andb].
    apply (IH (length ts')); [subst n; simpl; lia | reflexivity|].
    eapply follows_tail, Hf'.
Qed.

Lemma plain_no_eq_after t : plain_no_eq t = true -> after_escaped t = true.
Proof. destruct t as [c|[]]; simpl; auto. Qed.

(** After the escaped colons are marked, a colon or an escaped colon is
    followed by neither a colon nor an equals sign. *)
Lemma follows_trep_escaped ts :
  (forall m, In (H m) ts -> m <> M3) ->
  follows is_colon plain_no_eq ts = true ->
  follows colon_like after_escaped (trep BACKSLASH COLON M3 ts) = true.
Proof.
  remember (length ts) as n eqn:Hn. revert ts Hn.
  induction n as [n IH] using lt_wf_ind. intros ts Hn Hm Hf.
  destruct ts as [|t ts]; [reflexivity|].
  pose proof (follows_tail _ _ _ _ Hf) as Hf'.
  assert (forall m, In (H m) ts -> m <> M3) as Hm'
    by (intros m Hin; apply Hm; now right).
  destruct (trep_cases BACKSLASH COLON M3 t ts) as [[E Hk]|[ts' [Et [Ets E]]]];
    rewrite E.
  - cbn [follows].
    rewrite (IH (length ts)) by (subst n; simpl; lia || reflexivity || assumption).
    rewrite andb_true_r.
    destruct (colon_like t) eqn:Ec; [|reflexivity].
    assert (is_colon t = true) as Ec'.
    { destruct t as [c|[]]; try discriminate; [exact Ec|].
      exfalso. now apply (Hm M3 (or_introl eq_refl)). }
    pose proof (follows_head _ _ _ _ Hf Ec') as Hh.
    apply hd_ok_trep; [|left; reflexivity].
    eapply hd_ok_weaken; [apply plain_no_eq_after | exact Hh].
  - subst t ts. cbn [follows colon_like].
    rewrite (IH (length ts')).
    + rewrite andb_true_r. apply hd_ok_trep; [|left; reflexivity].
      eapply hd_ok_weaken; [apply plain_no_eq_after|].
      apply (follows_head _ _ _ _ Hf'). apply Ascii.eqb_refl.
    + subst n. simpl. lia.
    + reflexivity.
    + intros m Hin. apply Hm'. now right.
    + eapply follows_tail, Hf'.
Qed.

Lemma tcolon_cons_C c ts :
  tcolon (C c :: ts) = (if Ascii.eqb c COLON then H M3 else C c) :: tcolon ts.
Proof. reflexivity. Qed.

Lemma tcolon_cons_H m ts : tcolon (H m :: ts) = H m :: tcolon ts.
Proof. reflexivity. Qed.

Lemma hd_ok_tcolon ts :
  hd_ok after_escaped ts = true -> hd_ok after_escaped (tcolon ts) = true.
Proof.
  destruct ts as [|[c|m] ts]; [reflexivity| |].
  - rewrite tcolon_cons_C. cbn [hd_ok].
    destruct (Ascii.eqb c COLON) eqn:Ec; [reflexivity | trivial].
  - rewrite tcolon_cons_H. trivial.
Qed.

(** What the marked text looks like in the end. *)
Lemma stable_tcolon ts :
  follows colon_like after_escaped ts = true -> stable (tcolon ts) = true.
Proof.
  induction ts as [|t ts IH]; intros Hf; [reflexivity|].
  pose proof (follows_tail _ _ _ _ Hf) as Hf'.
  destruct t as [c|m].
  - rewrite tcolon_cons_C. destruct (Ascii.eqb c COLON) eqn:Ec.
    + cbn [stable]. rewrite (IH Hf'), andb_true_r. apply hd_ok_tcolon.
      apply (follows_head _ _ _ _ Hf). exact Ec.
    + cbn [stable]. now rewrite Ec, (IH Hf').
  - rewrite tcolon_cons_H. cbn [stable]. rewrite (IH Hf'), andb_true_r.
    destruct m; try reflexivity. apply hd_ok_tcolon.
    now apply (follows_head _ _ _ _ Hf).
Qed.

Lemma expand_tesc ts : expand (tesc ts) = expand (tcolon ts).
Proof.
  induction ts as [|t ts IH]; [reflexivity|].
  change (t :: ts) with ([t] ++ ts) at 1. unfold tesc. rewrite flat_map_app.
  fold (tesc ts). unfold expand in *. rewrite flatten_app, IH.
  destruct t as [c|m].
  - rewrite tcolon_cons_C. cbn [flat_map app].
    now destruct (Ascii.eqb c COLON).
  - destruct m; reflexivity.
Qed.

Lemma stable_marked_plpgsql sql :
  stable (tcolon (trep BACKSLASH COLON M3
                    (trep COLON EQUALS M2 (trep COLON COLON M1 (map C sql)))))
  = true.
Proof.
  apply stable_tcolon, follows_trep_escaped.
  - intros m Hin. apply trep_marks in Hin. destruct Hin as [->|Hin]; [discriminate|].
    apply trep_marks in Hin. destruct Hin as [->|Hin]; [discriminate|].
    now apply map_C_marks in Hin.
  - apply follows_trep_assign, follows_trep_colon.
Qed.

(** *** Reading the escaped text again *)

Lemma open3_cons t ts : open3 (t :: ts) = open3 [t] ++ open3 ts.
Proof. apply (tsubst_app M3 [BACKSLASH; COLON] [t] ts). Qed.

Lemma open2_cons t ts : open2 (t :: ts) = open2 [t] ++ open2 ts.
Proof. unfold open2. now rewrite open3_cons, tsubst_app. Qed.

Lemma open1_cons t ts : open1 (t :: ts) = open1 [t] ++ open1 ts.
Proof. unfold open1. now rewrite open2_cons, tsubst_app. Qed.

Lemma open1_chars ts : open1 ts = map C (expand ts).
Proof.
  induction ts as [|t ts IH]; [reflexivity|].
  rewrite open1_cons, IH. change (t :: ts) with ([t] ++ ts).
  unfold expand. rewrite flatten_app, map_app. f_equal.
  destruct t as [c|[]]; reflexivity.
Qed.

Lemma stable_tail t ts : stable (t :: ts) = true -> stable ts = true.
Proof. cbn [stable]. intros H. apply andb_true_iff in H. apply H. Qed.

Lemma stable_C c ts : stable (C c :: ts) = true -> Ascii.eqb c COLON = false.
Proof.
  cbn [stable]. intros H. apply andb_true_iff in H. destruct H as [H _].
  now apply negb_true_iff in H.
Qed.

Lemma stable_M3 ts : stable (H M3 :: ts) = true -> hd_ok after_escaped ts = true.
Proof. cbn [stable]. intros H. apply andb_true_iff in H. apply H. Qed.

Lemma after_escaped_C c :
  after_escaped (C c) = true ->
  Ascii.eqb c COLON = false /\ Ascii.eqb c EQUALS = false.
Proof.
  cbn [after_escaped]. intros H. apply andb_true_iff in H.
  destruct H as [H1 H2]. now apply negb_true_iff in H1, H2.
Qed.

Lemma hd_open1 ts :
  hd_ok after_escaped ts = true -> hd_is COLON (open1 ts) = false.
Proof.
  destruct ts as [|[c|[]] ts]; try discriminate; try reflexivity.
  intros H. apply after_escaped_C in H. rewrite open1_cons. apply H.
Qed.

Lemma hd_open2 ts :
  hd_ok after_escaped ts = true -> hd_is EQUALS (open2 ts) = false.
Proof.
  destruct ts as [|[c|[]] ts]; try discriminate; try reflexivity.
  intros H. apply after_escaped_C in H. rewrite open2_cons. apply H.
Qed.

Lemma hd_open3 ts : stable ts = true -> hd_is COLON (open3 ts) = false.
Proof.
  destruct ts as [|[c|[]] ts]; try reflexivity.
  intros H. apply stable_C in H. rewrite open3_cons. exact H.
Qed.

Lemma reparse_colon ts :
  stable ts = true -> trep COLON COLON M1 (open1 ts) = open2 ts.
Proof.
  induction ts as [|t ts IH]; intros Hs; [reflexivity|].
  pose proof (IH (stable_tail _ _ Hs)) as IH'.
  rewrite open1_cons, open2_cons. destruct t as [c|[]].
  - change (open1 [C c]) with [C c]. change (open2 [C c]) with [C c].
    cbn [app]. rewrite trep_keep by (now rewrite (stable_C _ _ Hs)).
    now rewrite IH'.
  - change (open1 [H M1]) with [C COLON; C COLON].
    change (open2 [H M1]) with [H M1].
    cbn [app]. now rewrite trep_hit, IH'.
  - change (open1 [H M2]) with [C COLON; C EQUALS].
    change (open2 [H M2]) with [C COLON; C EQUALS].
    cbn [app]. rewrite trep_keep by reflexivity.
    rewrite trep_keep by reflexivity. now rewrite IH'.
  - change (open1 [H M3]) with [C BACKSLASH; C COLON].
    change (open2 [H M3]) with [C BACKSLASH; C COLON].
    cbn [app]. rewrite trep_keep by reflexivity.
    rewrite trep_keep by (now rewrite (hd_open1 _ (stable_M3 _ Hs)), andb_false_r).
    now rewrite IH'.
Qed.

Lemma reparse_assign ts :
  stable ts = true -> trep COLON EQUALS M2 (open2 ts) = open3 ts.
Proof.
  induction ts as [|t ts IH]; intros Hs; [reflexivity|].
  pose proof (IH (stable_tail _ _ Hs)) as IH'.
  rewrite open2_cons, open3_cons. destruct t as [c|[]].
  - change (open2 [C c]) with [C c]. change (open3 [C c]) with [C c].
    cbn [app]. rewrite trep_keep by (now rewrite (stable_C _ _ Hs)).
    now rewrite IH'.
  - change (open2 [H M1]) with [H M1]. change (open3 [H M1]) with [H M1].
    cbn [app]. now rewrite trep_H, IH'.
  - change (open2 [H M2]) with [C COLON; C EQUALS].
    change (open3 [H M2]) with [H M2].
    cbn [app]. now rewrite trep_hit, IH'.
  - change (open2 [H M3]) with [C BACKSLASH; C COLON].
    change (open3 [H M3]) with [C BACKSLASH; C COLON].
    cbn [app]. rewrite trep_keep by reflexivity.
    rewrite trep_keep by (now rewrite (hd_open2 _ (stable_M3 _ Hs)), andb_false_r).
    now rewrite IH'.
Qed.

Lemma reparse_escaped ts :
  stable ts = true -> trep BACKSLASH COLON M3 (open3 ts) = ts.
Proof.
  induction ts as [|t ts IH]; intros Hs; [reflexivity|].
  pose proof (stable_tail _ _ Hs) as Hs'. pose proof (IH Hs') as IH'.
  rewrite open3_cons. destruct t as [c|[]].
  - change (open3 [C c]) with [C c].
    cbn [app]. rewrite trep_keep by (now rewrite (hd_open3 _ Hs'), andb_false_r).
    now rewrite IH'.
  - change (open3 [H M1]) with [H M1]. cbn [app]. now rewrite trep_H, IH'.
  - change (open3 [H M2]) with [H M2]. cbn [app]. now rewrite trep_H, IH'.
  - change (open3 [H M3]) with [C BACKSLASH; C COLON].
    cbn [app]. now rewrite trep_hit, IH'.
Qed.

Lemma tcolon_stable ts : stable ts = true -> tcolon ts = ts.
Proof.
  induction ts as [|t ts IH]; intros Hs; [reflexivity|].
  pose proof (IH (stable_tail _ _ Hs)) as IH'. destruct t as [c|m].
  - rewrite tcolon_cons_C, (stable_C _ _ Hs). now rewrite IH'.
  - rewrite tcolon_cons_H. now rewrite IH'.
Qed.

(** The text of a stable token list is escaped to itself. *)
Lemma ideal_plpgsql_stable ts :
  stable ts = true -> ideal_plpgsql (expand ts) = expand ts.
Proof.
  intros Hs. unfold ideal_plpgsql, marked_plpgsql.
  rewrite <- open1_chars.
  rewrite (reparse_colon _ Hs), (reparse_assign _ Hs), (reparse_escaped _ Hs).
  now rewrite expand_tesc, (tcolon_stable _ Hs).
Qed.

(** With marks for holders, escaping twice is escaping once. *)
Theorem ideal_plpgsql_idempotent sql :
  ideal_plpgsql (ideal_plpgsql sql) = ideal_plpgsql sql.
Proof.
  unfold ideal_plpgsql at 2 3. unfold marked_plpgsql.
  rewrite expand_tesc. apply ideal_plpgsql_stable, stable_marked_plpgsql.
Qed.

Lemma str_eqb_neq a b : str_eqb a b = false -> a <> b.
Proof. intros H E. apply str_eqb_eq in E. congruence. Qed.

(** C8: whatever UUID holders are drawn (distinct ones for the three of
    the plpgsql variant), [escape_colon_for_sql] returns [a::int] as it is,
    so its only colons are the double colon, and
    [escape_colon_for_plpgsql] returns the sample with every [:=] and [::]
    as it was; the sample has no colon besides these. *)
Theorem escape_colon_samples holder holder1 holder2 holder3 :
  is_uuid4 holder = true ->
  is_uuid4 holder1 = true -> is_uuid4 holder2 = true -> is_uuid4 holder3 = true ->
  str_eqb holder1 holder2 = false -> str_eqb holder1 holder3 = false ->
  str_eqb holder2 holder3 = false ->
  escape_colon_for_sql holder "a::int" = "a::int"
  /\ escape_colon_for_plpgsql holder1 holder2 holder3 PLPGSQL_SAMPLE
     = PLPGSQL_SAMPLE.
Proof.
  intros U U1 U2 U3 D12 D13 D23.
  apply is_uuid4_shape in U, U1, U2, U3.
  apply str_eqb_neq in D12, D13, D23. split.
  - rewrite escape_colon_for_sql_ideal; [reflexivity | exact U|].
    apply no_hyphen_no_mid; [exact U | absent_char].
  - rewrite escape_colon_for_plpgsql_ideal; try assumption; [reflexivity | | |];
      apply no_hyphen_no_mid; try assumption; absent_char.
Qed.

Lemma escape_colon_samples_witness :
  escape_colon_for_sql UUID_A "a::int" = "a::int"
  /\ escape_colon_for_plpgsql UUID_A UUID_B UUID_C PLPGSQL_SAMPLE
     = PLPGSQL_SAMPLE.
Proof.
  apply (escape_colon_samples UUID_A UUID_A UUID_B UUID_C); reflexivity.
Defined.

(** C10, as the code has it: with holders of the UUID form, distinct in
    each application, a text that holds the middle (characters 8 to 23) of
    none of the first three holders is escaped to a text which, when it
    holds the middle of none of the next three holders, is escaped to
    itself. *)
Theorem escape_colon_for_plpgsql_twice
  holder1 holder2 holder3 again1 again2 again3 sql :
  is_uuid4 holder1 = true -> is_uuid4 holder2 = true -> is_uuid4 holder3 = true ->
  is_uuid4 again1 = true -> is_uuid4 again2 = true -> is_uuid4 again3 = true ->
  str_eqb holder1 holder2 = false -> str_eqb holder1 holder3 = false ->
  str_eqb holder2 holder3 = false ->
  str_eqb again1 again2 = false -> str_eqb again1 again3 = false ->
  str_eqb again2 again3 = false ->
  contains sql (mid holder1) = false -> contains sql (mid holder2) = false ->
  contains sql (mid holder3) = false ->
  let once := escape_colon_for_plpgsql holder1 holder2 holder3 sql in
  contains once (mid again1) = false -> contains once (mid again2) = false ->
  contains once (mid again3) = false ->
  escape_colon_for_plpgsql again1 again2 again3 once = once.
Proof.
  intros U1 U2 U3 V1 V2 V3 D12 D13 D23 E12 E13 E23 N1 N2 N3 once.
  apply is_uuid4_shape in U1, U2, U3, V1, V2, V3.
  apply str_eqb_neq in D12, D13, D23, E12, E13, E23.
  assert (once = ideal_plpgsql sql) as ->
    by (now apply escape_colon_for_plpgsql_ideal).
  intros P1 P2 P3.
  rewrite escape_colon_for_plpgsql_ideal by assumption.
  apply ideal_plpgsql_idempotent.
Qed.

Lemma escape_colon_for_plpgsql_twice_witness :
  escape_colon_for_plpgsql UUID_D UUID_E UUID_F
    (escape_colon_for_plpgsql UUID_A UUID_B UUID_C MIXED_SAMPLE)
  = escape_colon_for_plpgsql UUID_A UUID_B UUID_C MIXED_SAMPLE.
Proof.
  apply (escape_colon_for_plpgsql_twice
           UUID_A UUID_B UUID_C UUID_D UUID_E UUID_F MIXED_SAMPLE);
    vm_compute; reflexivity.
Defined.

(** C10 fails as stated: the text below holds none of the holders, its
    escaped form holds none of the holders of the second application, and
    yet the second application changes it.  The first holder begins and
    ends with the same character, so the text before the double colon and
    the holder put in its place read as the holder one character early. *)
Lemma escape_colon_for_plpgsql_overlap :
  is_uuid4 UUID_A = true /\ is_uuid4 UUID_B = true /\ is_uuid4 UUID_C = true
  /\ is_uuid4 UUID_D = true /\ is_uuid4 UUID_E = true /\ is_uuid4 UUID_F = true
  /\ contains OVERLAP_SAMPLE UUID_A = false
  /\ contains OVERLAP_SAMPLE UUID_B = false
  /\ contains OVERLAP_SAMPLE UUID_C = false
  /\ (let once := escape_colon_for_plpgsql UUID_A UUID_B UUID_C OVERLAP_SAMPLE in
      contains once UUID_D = false /\ contains once UUID_E = false
      /\ contains once UUID_F = false
      /\ escape_colon_for_plpgsql UUID_D UUID_E UUID_F once <> once).
Proof.
  repeat split; try (vm_compute; reflexivity). vm_compute. discriminate.
Qed.

(** * Further properties *)

(** ** Whitespace, quoting and the terminating semicolon *)

(** ** [normalize_whitespace] *)

Lemma split_ws_from_words cur s :
  Forall (fun c => isspace c = false) cur ->
  Forall is_word (split_ws_from cur s).
Proof.
  revert cur. induction s as [|c s IH]; intros cur Hcur.
  - destruct cur as [|a cur]; [constructor|].
    constructor; [|constructor]. split.
    + intros E. apply (f_equal (@length ascii)) in E.
      rewrite length_rev in E. discriminate.
    + apply Forall_rev, Hcur.
  - cbn [split_ws_from]. destruct (isspace c) eqn:Ec.
    + destruct cur as [|a cur]; [apply IH; constructor|].
      constructor; [|apply IH; constructor]. split.
      * intros E. apply (f_equal (@length ascii)) in E.
        rewrite length_rev in E. discriminate.
      * apply Forall_rev, Hcur.
    + apply IH. now constructor.
Qed.

Lemma split_ws_words s : Forall is_word (split_ws s).
Proof. apply split_ws_from_words. constructor. Qed.

Lemma split_ws_from_word cur w rest :
  Forall (fun c => isspace c = false) w ->
  split_ws_from cur (w ++ rest) = split_ws_from (rev w ++ cur) rest.
Proof.
  intros Hw. revert cur. induction Hw as [|c w Hc Hw IH]; intros cur; [reflexivity|].
  cbn [app split_ws_from]. rewrite Hc, IH. cbn [rev]. now rewrite <- app_assoc.
Qed.

Lemma split_ws_join ws :
  Forall is_word ws -> split_ws (join [SPACE] ws) = ws.
Proof.
  unfold split_ws. induction 1 as [|w ws [Hne Hw] Hws IH]; [reflexivity|].
  destruct ws as [|w2 ws].
  - cbn [join]. rewrite <- (app_nil_r w) at 1.
    rewrite split_ws_from_word by exact Hw. rewrite app_nil_r. cbn [split_ws_from].
    destruct (rev w) as [|a r] eqn:E.
    + apply (f_equal (@length ascii)) in E. rewrite length_rev in E.
      destruct w; [congruence | discriminate].
    + rewrite <- E. now rewrite rev_involutive.
  - change (join [SPACE] (w :: w2 :: ws))
      with (w ++ [SPACE] ++ join [SPACE] (w2 :: ws)).
    rewrite split_ws_from_word by exact Hw. rewrite app_nil_r.
    cbn [app split_ws_from]. change (isspace SPACE) with true. cbv iota.
    destruct (rev w) as [|a r] eqn:E.
    + apply (f_equal (@length ascii)) in E. rewrite length_rev in E.
      destruct w; [congruence | discriminate].
    + rewrite <- E, rev_involutive. f_equal. exact IH.
Qed.

Lemma head_kept_app p a b : a <> [] -> head_kept p a -> head_kept p (a ++ b).
Proof. destruct a; [congruence | trivial]. Qed.

Lemma word_head_kept w : is_word w -> head_kept isspace w.
Proof. intros [_ Hw]. destruct Hw; [exact I | assumption]. Qed.

Lemma word_last_kept w : is_word w -> last_kept isspace w.
Proof.
  intros [_ Hw]. unfold last_kept. apply Forall_rev in Hw.
  destruct Hw; [exact I | assumption].
Qed.

Lemma join_words_not_nil w ws : is_word w -> join [SPACE] (w :: ws) <> [].
Proof.
  intros [Hne _]. destruct ws; cbn [join]; destruct w; try congruence; discriminate.
Qed.

Lemma join_words_trimmed ws :
  Forall is_word ws ->
  head_kept isspace (join [SPACE] ws) /\ last_kept isspace (join [SPACE] ws).
Proof.
  induction 1 as [|w ws Hw Hws [IH1 IH2]]; [split; exact I|].
  destruct ws as [|w2 ws].
  - cbn [join]. split; [now apply word_head_kept | now apply word_last_kept].
  - change (join [SPACE] (w :: w2 :: ws))
      with (w ++ [SPACE] ++ join [SPACE] (w2 :: ws)).
    split.
    + apply head_kept_app; [apply Hw | now apply word_head_kept].
    + unfold last_kept. rewrite !rev_app_distr. rewrite <- app_assoc.
      apply head_kept_app; [|exact IH2].
      intros E. apply (f_equal (@rev ascii)) in E. rewrite rev_involutive in E.
      inversion Hws as [|? ? Hw2 _]. now apply (join_words_not_nil w2 ws).
Qed.

Lemma normalize_whitespace_join text :
  normalize_whitespace text = join [SPACE] (split_ws text).
Proof.
  unfold normalize_whitespace.
  destruct (join_words_trimmed _ (split_ws_words text)). now apply strip_fix.
Qed.

(** X1: [normalize_whitespace] returns the words of the text, its maximal
    runs of characters that are not whitespace, joined by single spaces:
    the closing [strip] changes nothing, and every word is non-empty and
    free of whitespace. *)
Theorem normalize_whitespace_words (text : str) :
  normalize_whitespace text = join [SPACE] (split_ws text)
  /\ Forall is_word (split_ws text).
Proof. split; [apply normalize_whitespace_join | apply split_ws_words]. Qed.

(** X2: [normalize_whitespace] is idempotent: applied to its own result
    it returns that result. *)
Theorem normalize_whitespace_idempotent (text : str) :
  normalize_whitespace (normalize_whitespace text) = normalize_whitespace text.
Proof.
  rewrite (normalize_whitespace_join text).
  rewrite normalize_whitespace_join.
  now rewrite (split_ws_join _ (split_ws_words text)).
Qed.

(** ** Quoting *)

Lemma dropwhile_app_kept p (a b : str) :
  a <> [] -> head_kept p a -> dropwhile p (a ++ b) = a ++ b.
Proof.
  destruct a as [|c a]; [congruence|]. intros _ H. cbn in *. now rewrite H.
Qed.

Lemma last_kept_cons p c (t : str) :
  t <> [] -> last_kept p t -> last_kept p (c :: t).
Proof.
  unfold last_kept. intros Hne H. cbn [rev].
  destruct (rev t) as [|a r] eqn:E; [|exact H].
  apply (f_equal (@rev ascii)) in E. rewrite rev_involutive in E. contradiction.
Qed.

(** The quotes put around a trimmed text without quotes come off again. *)
Lemma strip_double_quotes_quoted t :
  ~ In DQUOTE t -> head_kept isspace t -> last_kept isspace t ->
  strip_double_quotes ([DQUOTE] ++ t ++ [DQUOTE]) = t.
Proof.
  intros Hq Hh Hl. destruct t as [|c t]; [reflexivity|].
  set (u := c :: t) in *.
  assert (u <> []) as Hne by discriminate.
  unfold strip_double_quotes.
  assert (strip ([DQUOTE] ++ u ++ [DQUOTE]) = [DQUOTE] ++ u ++ [DQUOTE]) as E1.
  { apply strip_fix; [reflexivity|].
    unfold last_kept. rewrite !rev_app_distr. reflexivity. }
  rewrite E1.
  assert (rstrip_by (is_char DQUOTE) ([DQUOTE] ++ u ++ [DQUOTE]) = DQUOTE :: u) as E2.
  { unfold rstrip_by. rewrite !rev_app_distr. cbn [rev app dropwhile].
    unfold is_char at 1. rewrite Ascii.eqb_refl.
    rewrite dropwhile_app_kept.
    - rewrite rev_app_distr, rev_involutive. reflexivity.
    - intros E. apply (f_equal (@rev ascii)) in E.
      rewrite rev_involutive in E. contradiction.
    - apply not_in_head_kept. intros Hin. apply Hq. now apply in_rev. }
  rewrite E2.
  assert (strip (DQUOTE :: u) = DQUOTE :: u) as E3.
  { apply strip_fix; [reflexivity|]. now apply last_kept_cons. }
  rewrite E3. unfold lstrip_by. cbn [dropwhile]. unfold is_char at 1.
  rewrite Ascii.eqb_refl.
  rewrite (dropwhile_fix _ _ (not_in_head_kept _ _ Hq)).
  now apply strip_fix.
Qed.

(** X3: [coerce_to_unquoted] removes every double quote and keeps all
    other characters in their order; applied twice it does what it does
    once. *)
Theorem coerce_to_unquoted_erases_quotes (text : str) :
  coerce_to_unquoted text = filter (fun a => negb (Ascii.eqb DQUOTE a)) text
  /\ coerce_to_unquoted (coerce_to_unquoted text) = coerce_to_unquoted text.
Proof.
  split; [apply coerce_to_unquoted_filter|].
  rewrite (coerce_to_unquoted_filter (coerce_to_unquoted text)).
  apply filter_not_in, coerce_to_unquoted_no_quote.
Qed.

(** X4: for a name without dot and double quote, [coerce_to_quoted] puts
    the name, stripped of surrounding whitespace, between double quotes;
    it leaves that quoted form as it is, so quoting twice equals quoting
    once. *)
Theorem coerce_to_quoted_keeps_quoted (x : str) :
  contains_char DOT x = false -> contains_char DQUOTE x = false ->
  coerce_to_quoted x = [DQUOTE] ++ strip x ++ [DQUOTE]
  /\ coerce_to_quoted ([DQUOTE] ++ strip x ++ [DQUOTE])
     = [DQUOTE] ++ strip x ++ [DQUOTE]
  /\ coerce_to_quoted (coerce_to_quoted x) = coerce_to_quoted x.
Proof.
  intros Hdot Hq.
  pose proof (proj1 (contains_char_false _ _) Hdot) as Hdot'.
  pose proof (proj1 (contains_char_false _ _) Hq) as Hq'.
  assert (coerce_to_quoted x = [DQUOTE] ++ strip x ++ [DQUOTE]) as E.
  { unfold coerce_to_quoted. rewrite Hdot.
    now rewrite strip_double_quotes_plain. }
  assert (coerce_to_quoted ([DQUOTE] ++ strip x ++ [DQUOTE])
          = [DQUOTE] ++ strip x ++ [DQUOTE]) as E2.
  { unfold coerce_to_quoted.
    assert (contains_char DOT ([DQUOTE] ++ strip x ++ [DQUOTE]) = false) as Hd.
    { apply contains_char_false. intros Hin.
      apply in_app_or in Hin. destruct Hin as [[Hin|[]]|Hin]; [discriminate|].
      apply in_app_or in Hin. destruct Hin as [Hin|[Hin|[]]]; [|discriminate].
      apply Hdot'. now apply strip_incl. }
    rewrite Hd. destruct (strip_trimmed x) as [Hh Hl].
    rewrite strip_double_quotes_quoted; trivial.
    intros Hin. apply Hq'. now apply strip_incl. }
  split; [exact E|]. split; [exact E2|]. rewrite E. exact E2.
Qed.

Lemma coerce_to_quoted_keeps_quoted_witness :
  coerce_to_quoted " my view " = [DQUOTE] ++ strip " my view " ++ [DQUOTE]
  /\ coerce_to_quoted ([DQUOTE] ++ strip " my view " ++ [DQUOTE])
     = [DQUOTE] ++ strip " my view " ++ [DQUOTE]
  /\ coerce_to_quoted (coerce_to_quoted " my view ") = coerce_to_quoted " my view ".
Proof.
  apply (coerce_to_quoted_keeps_quoted " my view "); reflexivity.
Defined.

Lemma partition_char_first sep a b :
  ~ In sep a -> partition_char sep (a ++ sep :: b) = (a, Some b).
Proof.
  induction a as [|c a IH]; intros H; cbn [app partition_char].
  - now rewrite Ascii.eqb_refl.
  - destruct (Ascii.eqb c sep) eqn:E.
    + apply Ascii.eqb_eq in E. subst. exfalso. apply H. now left.
    + rewrite IH; [reflexivity|]. intros Hin. apply H. now right.
Qed.

(** X5: [coerce_to_quoted] cuts a dotted name at its first dot only: for
    parts without double quotes, the part before the first dot and the
    whole rest, later dots included, are stripped and quoted separately,
    and [coerce_to_unquoted] of the result is the two stripped parts
    around the dot. *)
Theorem coerce_to_quoted_first_dot (a b : str) :
  contains_char DOT a = false ->
  contains_char DQUOTE a = false -> contains_char DQUOTE b = false ->
  coerce_to_quoted (a ++ [DOT] ++ b)
  = [DQUOTE] ++ strip a ++ [DQUOTE] ++ [DOT] ++ [DQUOTE] ++ strip b ++ [DQUOTE]
  /\ coerce_to_unquoted (coerce_to_quoted (a ++ [DOT] ++ b))
     = strip a ++ [DOT] ++ strip b.
Proof.
  intros Hdot Hqa Hqb.
  apply contains_char_false in Hdot, Hqa, Hqb.
  assert (coerce_to_quoted (a ++ [DOT] ++ b)
          = [DQUOTE] ++ strip a ++ [DQUOTE] ++ [DOT] ++ [DQUOTE] ++ strip b ++ [DQUOTE])
    as E.
  { unfold coerce_to_quoted.
    assert (contains_char DOT (a ++ [DOT] ++ b) = true) as Hd.
    { unfold contains_char. apply existsb_exists. exists DOT. split.
      - apply in_or_app. right. now left.
      - apply Ascii.eqb_refl. }
    rewrite Hd. cbn [app]. rewrite partition_char_first by exact Hdot.
    rewrite !strip_double_quotes_plain by assumption.
    cbn [app]. now rewrite <- !app_assoc. }
  split; [exact E|]. rewrite E, coerce_to_unquoted_filter.
  assert (forall s, ~ In DQUOTE s ->
            filter (fun c => negb (Ascii.eqb DQUOTE c)) (strip s) = strip s) as F.
  { intros s Hs. apply filter_not_in. intros Hin. apply Hs. now apply strip_incl. }
  cbn [app filter]. rewrite Ascii.eqb_refl. cbn [negb].
  rewrite filter_app. cbn [filter]. rewrite Ascii.eqb_refl. cbn [negb].
  change (Ascii.eqb DQUOTE DOT) with false. cbn [negb].
  rewrite filter_app. cbn [filter]. rewrite Ascii.eqb_refl. cbn [negb].
  rewrite !F by assumption. now rewrite app_nil_r.
Qed.

Lemma coerce_to_quoted_first_dot_witness :
  coerce_to_quoted ("app" ++ [DOT] ++ "v1.users")
  = [DQUOTE] ++ strip "app" ++ [DQUOTE] ++ [DOT] ++ [DQUOTE] ++ strip "v1.users" ++ [DQUOTE]
  /\ coerce_to_unquoted (coerce_to_quoted ("app" ++ [DOT] ++ "v1.users"))
     = strip "app" ++ [DOT] ++ strip "v1.users".
Proof.
  apply (coerce_to_quoted_first_dot "app" "v1.users"); reflexivity.
Defined.

(** ** The texts [strip_terminating_semicolon] leaves alone *)

Lemma dropwhile_length p (s : str) : length (dropwhile p s) <= length s.
Proof. induction s as [|c s IH]; simpl; [lia|]. destruct (p c); simpl; lia. Qed.

Lemma rstrip_by_length p (s : str) : length (rstrip_by p s) <= length s.
Proof.
  unfold rstrip_by. rewrite length_rev.
  pose proof (dropwhile_length p (rev s)) as H. now rewrite length_rev in H.
Qed.

Lemma strip_length s : length (strip s) <= length s.
Proof.
  unfold strip, rstrip, lstrip, lstrip_by.
  pose proof (rstrip_by_length isspace (dropwhile isspace s)).
  pose proof (dropwhile_length isspace s). lia.
Qed.

Lemma rstrip_by_shorter c s :
  endswith_char s c = true -> length (rstrip_by (is_char c) s) < length s.
Proof.
  unfold endswith_char, rstrip_by. rewrite length_rev, <- (length_rev s).
  destruct (rev s) as [|a r]; [discriminate|]. intros E.
  cbn [dropwhile]. unfold is_char at 1. rewrite Ascii.eqb_sym, E.
  pose proof (dropwhile_length (is_char c) r). simpl. lia.
Qed.

(** X6: the texts [strip_terminating_semicolon] returns unchanged are
    exactly those that neither start nor end with whitespace and do not
    end with a semicolon. *)
Theorem strip_terminating_semicolon_fixed (sql : str) :
  strip_terminating_semicolon sql = sql
  <-> head_kept isspace sql /\ last_kept isspace sql
      /\ endswith_char sql SEMICOLON = false.
Proof.
  unfold strip_terminating_semicolon. split.
  - intros E. destruct (strip_trimmed (rstrip_by (is_char SEMICOLON) (strip sql)))
      as [Hh Hl]. rewrite E in Hh, Hl. split; [exact Hh|]. split; [exact Hl|].
    destruct (endswith_char sql SEMICOLON) eqn:Ec; [|reflexivity].
    exfalso. rewrite (strip_fix sql Hh Hl) in E.
    pose proof (rstrip_by_shorter _ _ Ec) as L1.
    pose proof (strip_length (rstrip_by (is_char SEMICOLON) sql)) as L2.
    rewrite E in L2. lia.
  - intros [Hh [Hl Hc]]. rewrite (strip_fix sql Hh Hl).
    rewrite (rstrip_by_fix _ _ (endswith_char_last_kept _ _ Hc)).
    now apply strip_fix.
Qed.

Lemma strip_terminating_semicolon_fixed_witness :
  strip_terminating_semicolon "select 1 as one" = "select 1 as one".
Proof.
  apply (proj2 (strip_terminating_semicolon_fixed "select 1 as one")).
  repeat split; reflexivity.
Defined.

(** ** Colon escaping *)

(** ** Texts the escaping leaves alone *)

Lemma str_replace_absent s old new :
  contains s old = false -> str_replace s old new = s.
Proof.
  induction s as [|c s IH]; intros H; [reflexivity|].
  cbn [contains] in H. apply orb_false_iff in H. destruct H as [H1 H2].
  rewrite str_replace_miss by exact H1. f_equal. now apply IH.
Qed.

Lemma startswith_incl s w a : startswith s w = true -> In a w -> In a s.
Proof.
  intros H Hin. rewrite (startswith_inv _ _ H). apply in_or_app. now left.
Qed.

Lemma contains_missing_char a w s : In a w -> ~ In a s -> contains s w = false.
Proof.
  intros Hw. induction s as [|c s IH]; intros Hs.
  - cbn [contains]. destruct (startswith [] w) eqn:E; [|reflexivity].
    exfalso. apply Hs. exact (startswith_incl _ _ _ E Hw).
  - cbn [contains]. rewrite IH by (intros Hin; apply Hs; now right).
    destruct (startswith (c :: s) w) eqn:E; [|reflexivity].
    exfalso. apply Hs. exact (startswith_incl _ _ _ E Hw).
Qed.

(** X7: [escape_colon_for_sql] returns a text without colon unchanged,
    whatever holder was drawn, provided the holder does not occur in the
    text. *)
Theorem escape_colon_for_sql_no_colon (holder sql : str) :
  contains_char COLON sql = false -> contains sql holder = false ->
  escape_colon_for_sql holder sql = sql.
Proof.
  intros Hc Hh. apply contains_char_false in Hc.
  unfold escape_colon_for_sql.
  rewrite (str_replace_absent sql "::")
    by (apply (contains_missing_char COLON); [now left | exact Hc]).
  rewrite (str_replace_absent sql ":")
    by (apply (contains_missing_char COLON); [now left | exact Hc]).
  now apply str_replace_absent.
Qed.

Lemma escape_colon_for_sql_no_colon_witness :
  escape_colon_for_sql UUID_A "select 1 as one" = "select 1 as one".
Proof.
  apply (escape_colon_for_sql_no_colon UUID_A "select 1 as one"); reflexivity.
Defined.

(** X8: [escape_colon_for_plpgsql] returns a text without colon
    unchanged, whatever the three holders drawn, provided none of them
    occurs in the text. *)
Theorem escape_colon_for_plpgsql_no_colon (holder1 holder2 holder3 sql : str) :
  contains_char COLON sql = false ->
  contains sql holder1 = false -> contains sql holder2 = false ->
  contains sql holder3 = false ->
  escape_colon_for_plpgsql holder1 holder2 holder3 sql = sql.
Proof.
  intros Hc H1 H2 H3. apply contains_char_false in Hc.
  unfold escape_colon_for_plpgsql.
  rewrite (str_replace_absent sql "::")
    by (apply (contains_missing_char COLON); [now left | exact Hc]).
  rewrite (str_replace_absent sql ":=")
    by (apply (contains_missing_char COLON); [now left | exact Hc]).
  rewrite (str_replace_absent sql [BACKSLASH; COLON])
    by (apply (contains_missing_char COLON); [right; now left | exact Hc]).
  rewrite (str_replace_absent sql ":")
    by (apply (contains_missing_char COLON); [now left | exact Hc]).
  rewrite (str_replace_absent sql holder3) by exact H3.
  rewrite (str_replace_absent sql holder2) by exact H2.
  now apply str_replace_absent.
Qed.

Lemma escape_colon_for_plpgsql_no_colon_witness :
  escape_colon_for_plpgsql UUID_A UUID_B UUID_C "begin return 1; end"
  = "begin return 1; end".
Proof.
  apply (escape_colon_for_plpgsql_no_colon UUID_A UUID_B UUID_C
           "begin return 1; end"); reflexivity.
Defined.

(** ** The holder drawn does not show in the result *)

(** X9: the result of [escape_colon_for_sql] does not depend on the UUID
    drawn: two holders of the version-4 form whose middle parts
    (characters 8 to 23) do not occur in the text give the same result. *)
Theorem escape_colon_for_sql_any_holder (holder holder' sql : str) :
  is_uuid4 holder = true -> is_uuid4 holder' = true ->
  contains sql (mid holder) = false -> contains sql (mid holder') = false ->
  escape_colon_for_sql holder sql = escape_colon_for_sql holder' sql.
Proof.
  intros U U' N N'. apply is_uuid4_shape in U, U'.
  now rewrite !escape_colon_for_sql_ideal.
Qed.

Lemma escape_colon_for_sql_any_holder_witness :
  escape_colon_for_sql UUID_A "select :x, y::int"
  = escape_colon_for_sql UUID_B "select :x, y::int".
Proof.
  apply (escape_colon_for_sql_any_holder UUID_A UUID_B "select :x, y::int");
    reflexivity.
Defined.

(** X10: the result of [escape_colon_for_plpgsql] does not depend on the
    UUIDs drawn: two triples of pairwise distinct holders of the version-4
    form whose middle parts do not occur in the text give the same
    result. *)
Theorem escape_colon_for_plpgsql_any_holders
  (holder1 holder2 holder3 other1 other2 other3 sql : str) :
  is_uuid4 holder1 = true -> is_uuid4 holder2 = true -> is_uuid4 holder3 = true ->
  is_uuid4 other1 = true -> is_uuid4 other2 = true -> is_uuid4 other3 = true ->
  str_eqb holder1 holder2 = false -> str_eqb holder1 holder3 = false ->
  str_eqb holder2 holder3 = false ->
  str_eqb other1 other2 = false -> str_eqb other1 other3 = false ->
  str_eqb other2 other3 = false ->
  contains sql (mid holder1) = false -> contains sql (mid holder2) = false ->
  contains sql (mid holder3) = false ->
  contains sql (mid other1) = false -> contains sql (mid other2) = false ->
  contains sql (mid other3) = false ->
  escape_colon_for_plpgsql holder1 holder2 holder3 sql
  = escape_colon_for_plpgsql other1 other2 other3 sql.
Proof.
  intros U1 U2 U3 V1 V2 V3 D12 D13 D23 E12 E13 E23 N1 N2 N3 P1 P2 P3.
  apply is_uuid4_shape in U1, U2, U3, V1, V2, V3.
  apply str_eqb_neq in D12, D13, D23, E12, E13, E23.
  now rewrite !escape_colon_for_plpgsql_ideal.
Qed.

Lemma escape_colon_for_plpgsql_any_holders_witness :
  escape_colon_for_plpgsql UUID_A UUID_B UUID_C MIXED_SAMPLE
  = escape_colon_for_plpgsql UUID_D UUID_E UUID_F MIXED_SAMPLE.
Proof.
  apply (escape_colon_for_plpgsql_any_holders
           UUID_A UUID_B UUID_C UUID_D UUID_E UUID_F MIXED_SAMPLE);
    vm_compute; reflexivity.
Defined.

(** ** Undoing [escape_colon_for_sql] *)

Lemma hd_is_map_C b s : hd_is b (map C s) = startswith s [b].
Proof.
  destruct s as [|c s]; [reflexivity|]. cbn [map hd_is startswith].
  now rewrite andb_true_r, Ascii.eqb_sym.
Qed.

Lemma ideal_sql_pair s :
  ideal_sql (COLON :: COLON :: s) = COLON :: COLON :: ideal_sql s.
Proof.
  unfold ideal_sql, marked_sql. cbn [map]. rewrite trep_hit. reflexivity.
Qed.

Lemma ideal_sql_lone s :
  startswith s [COLON] = false ->
  ideal_sql (COLON :: s) = BACKSLASH :: COLON :: ideal_sql s.
Proof.
  intros Hs. unfold ideal_sql, marked_sql. cbn [map].
  rewrite trep_keep by (rewrite hd_is_map_C, Hs; apply andb_false_r).
  reflexivity.
Qed.

Lemma ideal_sql_other c s :
  Ascii.eqb c COLON = false -> ideal_sql (c :: s) = c :: ideal_sql s.
Proof.
  intros Hc. unfold ideal_sql, marked_sql. cbn [map].
  rewrite trep_keep by (now rewrite Hc).
  unfold tesc. cbn [flat_map]. rewrite Hc. reflexivity.
Qed.

(** The escaped text starts with a colon only where the text starts with
    a double colon. *)
Lemma ideal_sql_head s :
  startswith s [COLON] = false -> startswith (ideal_sql s) [COLON] = false.
Proof.
  destruct s as [|c s]; [reflexivity|]. cbn [startswith]. rewrite andb_true_r.
  intros Hc. rewrite Ascii.eqb_sym in Hc. rewrite ideal_sql_other by exact Hc.
  cbn [startswith]. now rewrite andb_true_r, Ascii.eqb_sym.
Qed.

Lemma ideal_sql_undone n : forall s,
  length s <= n -> contains s [BACKSLASH; COLON] = false ->
  str_replace (ideal_sql s) [BACKSLASH; COLON] [COLON] = s.
Proof.
  induction n as [|n IH]; intros s Hn Hc.
  - destruct s; [reflexivity | simpl in Hn; lia].
  - destruct s as [|c s]; [reflexivity|].
    cbn [contains] in Hc. apply orb_false_iff in Hc. destruct Hc as [Hc1 Hc2].
    destruct (Ascii.eqb c COLON) eqn:Ec.
    + apply Ascii.eqb_eq in Ec. subst c.
      destruct (startswith s [COLON]) eqn:Es.
      * destruct s as [|d s]; [discriminate|].
        cbn [startswith] in Es. rewrite andb_true_r in Es.
        apply Ascii.eqb_eq in Es. subst d.
        rewrite ideal_sql_pair.
        rewrite !str_replace_miss by reflexivity.
        f_equal. f_equal. apply IH; [simpl in Hn; lia|].
        cbn [contains] in Hc2. apply orb_false_iff in Hc2. apply Hc2.
      * rewrite ideal_sql_lone by exact Es.
        change (BACKSLASH :: COLON :: ideal_sql s)
          with ([BACKSLASH; COLON] ++ ideal_sql s).
        rewrite str_replace_hit. cbn [app]. f_equal.
        apply IH; [simpl in Hn; lia | exact Hc2].
    + rewrite ideal_sql_other by exact Ec.
      rewrite str_replace_miss.
      * f_equal. apply IH; [simpl in Hn; lia | exact Hc2].
      * cbn [startswith]. destruct (Ascii.eqb BACKSLASH c) eqn:Eb; [|reflexivity].
        cbn [andb]. apply ideal_sql_head.
        cbn [startswith] in Hc1. now rewrite Eb in Hc1.
Qed.

(** X11: [escape_colon_for_sql] can be undone: for a text that holds no
    backslash directly followed by a colon (and not the middle part of
    the holder), replacing every backslash-colon of the result by a colon
    gives the text back. *)
Theorem escape_colon_for_sql_undone (holder sql : str) :
  is_uuid4 holder = true -> contains sql (mid holder) = false ->
  contains sql [BACKSLASH; COLON] = false ->
  str_replace (escape_colon_for_sql holder sql) [BACKSLASH; COLON] [COLON] = sql.
Proof.
  intros U N Hc. apply is_uuid4_shape in U.
  rewrite escape_colon_for_sql_ideal by assumption.
  now apply (ideal_sql_undone (length sql)).
Qed.

Lemma escape_colon_for_sql_undone_witness :
  str_replace (escape_colon_for_sql UUID_A "select :x, y::int, ':' ")
    [BACKSLASH; COLON] [COLON]
  = "select :x, y::int, ':' ".
Proof.
  apply (escape_colon_for_sql_undone UUID_A "select :x, y::int, ':' ");
    reflexivity.
Defined.

(** ** Where the two escaping functions agree *)

Lemma trep_unspelled a b m ts :
  unspelled [a; b] ts = true -> trep a b m ts = ts.
Proof.
  induction ts as [|t ts IH]; intros Hu; [reflexivity|].
  pose proof (unspelled_tail _ _ _ Hu) as Hu'.
  destruct (trep_cons a b m t ts) as [E|[ts' [-> [-> _]]]].
  - rewrite E. f_equal. now apply IH.
  - exfalso. cbn [unspelled spells] in Hu. now rewrite !Ascii.eqb_refl in Hu.
Qed.

Lemma ideal_plpgsql_plain sql :
  contains sql [COLON; EQUALS] = false ->
  contains sql [BACKSLASH; COLON] = false ->
  ideal_plpgsql sql = ideal_sql sql.
Proof.
  intros H2 H3. unfold ideal_plpgsql, ideal_sql, marked_plpgsql, marked_sql.
  set (t1 := trep COLON COLON M1 (map C sql)).
  assert (forall w, w <> [] -> contains sql w = false -> unspelled w t1 = true) as U.
  { intros w Hw Hc. apply unspelled_trep; [exact Hw|]. now apply unspelled_map_C. }
  rewrite (trep_unspelled COLON EQUALS M2 t1) by (apply U; [discriminate | exact H2]).
  rewrite (trep_unspelled BACKSLASH COLON M3 t1) by (apply U; [discriminate | exact H3]).
  reflexivity.
Qed.

(** X22: on a text that holds neither a colon directly followed by an
    equals sign nor a backslash directly followed by a colon,
    [escape_colon_for_plpgsql] returns what [escape_colon_for_sql]
    returns, for holders of the version-4 form, the three of the former
    pairwise distinct, whose middle parts do not occur in the text. *)
Theorem escape_colon_for_plpgsql_as_sql
  (holder holder1 holder2 holder3 sql : str) :
  is_uuid4 holder = true ->
  is_uuid4 holder1 = true -> is_uuid4 holder2 = true -> is_uuid4 holder3 = true ->
  str_eqb holder1 holder2 = false -> str_eqb holder1 holder3 = false ->
  str_eqb holder2 holder3 = false ->
  contains sql (mid holder) = false ->
  contains sql (mid holder1) = false -> contains sql (mid holder2) = false ->
  contains sql (mid holder3) = false ->
  contains sql ":=" = false -> contains sql [BACKSLASH; COLON] = false ->
  escape_colon_for_plpgsql holder1 holder2 holder3 sql
  = escape_colon_for_sql holder sql.
Proof.
  intros U U1 U2 U3 D12 D13 D23 N N1 N2 N3 Ha He.
  apply is_uuid4_shape in U, U1, U2, U3.
  apply str_eqb_neq in D12, D13, D23.
  rewrite escape_colon_for_plpgsql_ideal by assumption.
  rewrite escape_colon_for_sql_ideal by assumption.
  now apply ideal_plpgsql_plain.
Qed.

Lemma escape_colon_for_plpgsql_as_sql_witness :
  escape_colon_for_plpgsql UUID_B UUID_C UUID_D "select :x, y::int from t"
  = escape_colon_for_sql UUID_A "select :x, y::int from t".
Proof.
  apply (escape_colon_for_plpgsql_as_sql UUID_A UUID_B UUID_C UUID_D
           "select :x, y::int from t"); vm_compute; reflexivity.
Defined.

(** ** Splitting and dropping a routine *)

Section FunctionStatementMore.

Variables Node TypeName DropStmt OtherStmt : Type.
Variable query_to_pb : str -> (str + ParseResult Node TypeName DropStmt OtherStmt).
Variable pb_to_query : ParseResult Node TypeName DropStmt OtherStmt -> str.
Variable repr_stmt : RawStmt Node TypeName DropStmt OtherStmt -> str.
Variable sval : Node -> str.

Local Abbreviation split_body :=
  (split_function_body Node TypeName DropStmt OtherStmt
     query_to_pb pb_to_query repr_stmt sval).

(** X12: when the codec cannot parse the input and raises [PgQueryExc],
    [split_function] raises [SQLParseFailure] with the same message. *)
Theorem split_function_parse_error sql msg :
  query_to_pb sql = inl msg ->
  split_function Node TypeName DropStmt OtherStmt
    query_to_pb pb_to_query repr_stmt sval sql
  = inl (SQLParseFailure msg).
Proof.
  intros H. unfold split_function, split_function_body,
    _get_func_signature_returns_and_type, parse_sql.
  rewrite H. reflexivity.
Qed.

(** X13: [split_function] never lets a [PgQueryExc] out, whichever of
    its calls to the codec raised it: the parse of the input, of the dummy
    statement, or of the reconstruction in [validate_split_function]. *)
Theorem split_function_never_pg_query_exc sql msg :
  split_function Node TypeName DropStmt OtherStmt
    query_to_pb pb_to_query repr_stmt sval sql
  <> inl (PgQueryExc msg).
Proof.
  unfold split_function.
  destruct (split_body sql) as [[m|m|m]|r]; discriminate.
Qed.

Lemma bind_inr (A B : Type) (m : result A) (k : A -> result B) b :
  bind m k = inr b -> exists a, m = inr a /\ k a = inr b.
Proof. destruct m as [e|a]; [discriminate|]. intros H. now exists a. Qed.

Lemma parse_sql_inr sql tree :
  parse_sql Node TypeName DropStmt OtherStmt query_to_pb sql = inr tree ->
  query_to_pb sql = inr tree.
Proof.
  unfold parse_sql. destruct (query_to_pb sql); [discriminate|].
  intros H. now injection H as ->.
Qed.

Lemma validate_inr signature returns schema body is_proc u :
  validate_split_function Node TypeName DropStmt OtherStmt query_to_pb
    signature returns schema body is_proc = inr u ->
  exists tree,
    query_to_pb
      ("CREATE " ++ (if is_proc then "PROCEDURE" else "FUNCTION") ++ " "
         ++ schema ++ "." ++ signature ++ " " ++ returns ++ " " ++ body)
    = inr tree.
Proof.
  unfold validate_split_function. intros H.
  apply bind_inr in H. destruct H as [t [H _]].
  exists t. apply parse_sql_inr in H. rewrite <- H. now destruct is_proc.
Qed.

Lemma get_stmt_single tree c :
  _get_create_function_stmt Node TypeName DropStmt OtherStmt repr_stmt tree
  = inr c ->
  single_routine tree = true.
Proof.
  unfold _get_create_function_stmt, single_routine.
  destruct (stmts _ _ _ _ tree) as [|s [|s' l]]; try discriminate.
  destruct (stmt _ _ _ _ s); try discriminate; reflexivity.
Qed.

Lemma signature_inr sql sr :
  _get_func_signature_returns_and_type Node TypeName DropStmt OtherStmt
    query_to_pb pb_to_query repr_stmt sql = inr sr ->
  exists tree, query_to_pb sql = inr tree /\ single_routine tree = true.
Proof.
  unfold _get_func_signature_returns_and_type. intros H.
  apply bind_inr in H. destruct H as [tree [Ht H]].
  apply bind_inr in H. destruct H as [c [Hc _]].
  exists tree. split; [now apply parse_sql_inr | now apply get_stmt_single in Hc].
Qed.

(** X14: whenever [split_function] returns, the codec parses the
    statement reassembled from the returned parts as
    [validate_split_function] writes it; the returns clause is empty or
    starts with the word returns and a space; and the input itself parsed
    to a single statement creating a function or a procedure. *)
Theorem split_function_result_reparses sql signature returns schema body is_proc :
  split_function Node TypeName DropStmt OtherStmt
    query_to_pb pb_to_query repr_stmt sval sql
  = inr (signature, returns, schema, body, is_proc) ->
  (exists tree,
     query_to_pb
       ("CREATE " ++ (if is_proc then "PROCEDURE" else "FUNCTION") ++ " "
          ++ schema ++ "." ++ signature ++ " " ++ returns ++ " " ++ body)
     = inr tree)
  /\ (returns = [] \/ startswith returns "returns " = true)
  /\ (exists tree, query_to_pb sql = inr tree /\ single_routine tree = true).
Proof.
  intros H. unfold split_function in H.
  destruct (split_body sql) as [[m|m|m]|r] eqn:E; try discriminate.
  rewrite H in E. clear H r.
  unfold split_function_body in E.
  apply bind_inr in E. destruct E as [[sr proc] [Hsr E]].
  apply signature_inr in Hsr.
  destruct (parse "{signature}returns{ret_type}" sr) as [r|] eqn:Ep;
    cbv beta iota zeta in E;
    apply bind_inr in E; destruct E as [sch [Hsch E]];
    apply bind_inr in E; destruct E as [bd [Hbd E]];
    apply bind_inr in E; destruct E as [u [Hv E]];
    injection E as <- <- <- <- <-;
    apply validate_inr in Hv;
    (split; [exact Hv | split; [|exact Hsr]]).
  - right. reflexivity.
  - left. reflexivity.
Qed.

End FunctionStatementMore.

Section DropStatementProperties.

Variables Node TypeName OtherStmt DropAttrs : Type.
Variable query_to_pb :
  str -> (str + ParseResult Node TypeName (DropStmt Node DropAttrs) OtherStmt).
Variable pb_to_query :
  ParseResult Node TypeName (DropStmt Node DropAttrs) OtherStmt -> str.
Variable repr_stmt :
  RawStmt Node TypeName (DropStmt Node DropAttrs) OtherStmt -> str.
Variable clear_defexpr : Node -> Node.

Local Abbreviation render :=
  (render_drop_statement Node TypeName OtherStmt DropAttrs
     query_to_pb pb_to_query repr_stmt clear_defexpr).
Local Abbreviation get_drop :=
  (_get_drop_stmt Node TypeName OtherStmt DropAttrs repr_stmt).
Local Abbreviation get_routine :=
  (_get_create_function_stmt Node TypeName (DropStmt Node DropAttrs) OtherStmt
     repr_stmt).

(** X15: when the dummy drop statement parses but the codec cannot parse
    the text of the routine, [render_drop_statement] raises the
    [PgQueryExc] of the codec as it is, not [SQLParseFailure]. *)
Theorem render_drop_statement_parse_error
  (func_sql : str) (is_proc : bool) dummy_tree d msg :
  query_to_pb ("DROP " ++ (if is_proc then "PROCEDURE" else "FUNCTION")
                 ++ " sqrt(integer);") = inr dummy_tree ->
  get_drop dummy_tree = inr d ->
  query_to_pb func_sql = inl msg ->
  render func_sql is_proc = inl (Raised (PgQueryExc msg)).
Proof.
  intros Hd Hg Hf. unfold render_drop_statement, parse_sql.
  destruct is_proc; rewrite Hd; cbn [lift_exn ret]; rewrite Hg; cbn [lift_exn];
    rewrite Hf; reflexivity.
Qed.

(** X16: the statement rendered by [render_drop_statement] depends on
    the name and on the parameters without their defaults only: two
    routine texts that agree on these give the same outcome, whatever
    their bodies, return types and options. *)
Theorem render_drop_statement_name_and_parameters
  sql1 sql2 tree1 tree2 c1 c2 is_proc :
  query_to_pb sql1 = inr tree1 -> get_routine tree1 = inr c1 ->
  query_to_pb sql2 = inr tree2 -> get_routine tree2 = inr c2 ->
  funcname _ _ c1 = funcname _ _ c2 ->
  map clear_defexpr (parameters _ _ c1) = map clear_defexpr (parameters _ _ c2) ->
  render sql1 is_proc = render sql2 is_proc.
Proof.
  intros H1 G1 H2 G2 Hn Hp. unfold render_drop_statement, parse_sql.
  rewrite H1, H2.
  destruct (query_to_pb ("DROP " ++ _ ++ " sqrt(integer);")) as [e|dt];
    [reflexivity|].
  cbn [lift_exn ret]. destruct (get_drop dt) as [e|d]; [reflexivity|].
  cbn [lift_exn]. rewrite G1, G2. cbn [lift_exn].
  now rewrite Hn, Hp.
Qed.

End DropStatementProperties.

Lemma split_function_parse_error_witness :
  split_function unit unit unit unit
    (fun _ => inl ("syntax error at end of input" : str))
    (fun _ => []) (fun _ => []) (fun _ => []) "create function"
  = inl (SQLParseFailure "syntax error at end of input").
Proof.
  apply (split_function_parse_error unit unit unit unit
           (fun _ => inl ("syntax error at end of input" : str))
           (fun _ => []) (fun _ => []) (fun _ => []) "create function").
  reflexivity.
Defined.

Lemma split_function_never_pg_query_exc_witness :
  TwoStatements.split_function "SELECT 1; SELECT 2"
  <> inl (PgQueryExc "syntax error at end of input").
Proof.
  apply (split_function_never_pg_query_exc unit unit unit unit
           TwoStatements.query_to_pb TwoStatements.pb_to_query
           (fun _ => "SelectStmt" : str) (fun _ => [])
           "SELECT 1; SELECT 2" "syntax error at end of input").
Defined.

Lemma split_function_result_reparses_witness :
  (exists tree,
     OneFunction.query_to_pb
       ("CREATE " ++ "FUNCTION" ++ " " ++ "public" ++ "." ++ "foo.bar()" ++ " "
          ++ "returns void" ++ " " ++ OneFunction.SAMPLE)
     = inr tree)
  /\ (("returns void" : str) = [] \/ startswith "returns void" "returns " = true)
  /\ (exists tree, OneFunction.query_to_pb OneFunction.SAMPLE = inr tree
                   /\ single_routine tree = true).
Proof.
  apply (split_function_result_reparses str unit unit unit
           OneFunction.query_to_pb OneFunction.pb_to_query
           (fun _ => []) (fun s => s)
           OneFunction.SAMPLE "foo.bar()" "returns void" "public"
           OneFunction.SAMPLE false).
  vm_compute. reflexivity.
Defined.

Lemma render_drop_statement_parse_error_witness :
  render_drop_statement str unit unit unit
    (fun sql => if startswith sql "DROP" then inr DropCodec.drop_tree
                else inl ("syntax error" : str))
    DropCodec.pb_to_query (fun _ => []) (fun p => p) "create function" false
  = inl (Raised (PgQueryExc "syntax error")).
Proof.
  apply (render_drop_statement_parse_error str unit unit unit
           (fun sql => if startswith sql "DROP" then inr DropCodec.drop_tree
                       else inl ("syntax error" : str))
           DropCodec.pb_to_query (fun _ => []) (fun p => p)
           "create function" false DropCodec.drop_tree
           (mkDropStmt _ _
              [object_with_args _
                 (mkObjectWithArgs _ ["sqrt" : str] ["integer" : str] [] false)]
              tt));
    reflexivity.
Defined.

Lemma render_drop_statement_name_and_parameters_witness :
  render_drop_statement str unit unit unit
    DropCodec.query_to_pb DropCodec.pb_to_query (fun _ => []) (fun p => p)
    "select 1" false
  = render_drop_statement str unit unit unit
      DropCodec.query_to_pb DropCodec.pb_to_query (fun _ => []) (fun p => p)
      "select 2" false.
Proof.
  apply (render_drop_statement_name_and_parameters str unit unit unit
           DropCodec.query_to_pb DropCodec.pb_to_query (fun _ => []) (fun p => p)
           "select 1" "select 2"
           (DropCodec.routine_tree "select 1") (DropCodec.routine_tree "select 2")
           (mkCreateFunctionStmt _ _ false false ["f" : str] ["x" : str] tt
              ["select 1" : str] None)
           (mkCreateFunctionStmt _ _ false false ["f" : str] ["x" : str] tt
              ["select 2" : str] None)
           false);
    reflexivity.
Defined.

(** ** Reading a materialized view *)

(** *** The matcher, field by field *)

Lemma match_fields_any name fs s :
  match_fields (Any name :: fs) s = lazy_any (match_fields fs) name [] s.
Proof.
  cbn [match_fields]. generalize (@nil ascii).
  induction s as [|c s IH]; intros acc; [reflexivity|].
  cbn [lazy_any]. destruct (match_fields fs s); [reflexivity | apply IH].
Qed.

Lemma match_fields_ws fs s :
  match_fields (Ws :: fs) s = greedy_ws (match_fields fs) [] s.
Proof.
  cbn [match_fields]. generalize (@nil ascii).
  induction s as [|c s IH]; intros acc; [reflexivity|].
  cbn [greedy_ws]. destruct (isspace c); [|reflexivity].
  rewrite IH. reflexivity.
Qed.

Lemma lazy_any_some k name acc s caps :
  lazy_any k name acc s = Some caps ->
  exists text s' caps', caps = cap name text :: caps' /\ k s' = Some caps'.
Proof.
  revert acc. induction s as [|c s IH]; intros acc H; [discriminate|].
  cbn [lazy_any] in H. destruct (k s) as [caps'|] eqn:E.
  - injection H as <-. now exists (rev (c :: acc)), s, caps'.
  - now apply IH in H.
Qed.

Lemma greedy_ws_some k acc s caps :
  greedy_ws k acc s = Some caps ->
  exists text s' caps', caps = Fixed text :: caps' /\ k s' = Some caps'.
Proof.
  revert acc. induction s as [|c s IH]; intros acc H; [discriminate|].
  cbn [greedy_ws] in H. destruct (isspace c); [|discriminate].
  destruct (greedy_ws k (c :: acc) s) as [r|] eqn:E.
  - injection H as <-. now apply IH in E.
  - destruct (k s) as [caps'|] eqn:Ek; [|discriminate].
    injection H as <-. now exists (rev (c :: acc)), s, caps'.
Qed.

Lemma cap_name_cap name text : cap_name (cap name text) = name.
Proof. now destruct name. Qed.

(** A match of [fs1 ++ fs2] is a match of [fs2] on the rest of the text,
    after one capture for each field of [fs1]. *)
Lemma match_fields_app fs1 fs2 : forall s caps,
  match_fields (fs1 ++ fs2) s = Some caps ->
  exists caps1 caps2 s2,
    caps = caps1 ++ caps2 /\ map cap_name caps1 = field_names fs1
    /\ match_fields fs2 s2 = Some caps2.
Proof.
  induction fs1 as [|f fs1 IH]; intros s caps H.
  - now exists [], caps, s.
  - destruct f as [l|name|]; cbn [app] in H.
    + cbn [match_fields] in H.
      destruct (drop_prefix_ci l s) as [rest|]; [|discriminate].
      exact (IH _ _ H).
    + rewrite match_fields_any in H. apply lazy_any_some in H.
      destruct H as [text [s' [caps' [-> H]]]].
      destruct (IH _ _ H) as [caps1 [caps2 [s2 [-> [Hn H2]]]]].
      exists (cap name text :: caps1), caps2, s2.
      split; [reflexivity|]. split; [|exact H2].
      cbn [map field_names]. now rewrite cap_name_cap, Hn.
    + rewrite match_fields_ws in H. apply greedy_ws_some in H.
      destruct H as [text [s' [caps' [-> H]]]].
      destruct (IH _ _ H) as [caps1 [caps2 [s2 [-> [Hn H2]]]]].
      exists (Fixed text :: caps1), caps2, s2.
      split; [reflexivity|]. split; [|exact H2].
      cbn [map field_names cap_name]. now rewrite Hn.
Qed.

Lemma match_fields_names fs s caps :
  match_fields fs s = Some caps -> map cap_name caps = field_names fs.
Proof.
  intros H. rewrite <- (app_nil_r fs) in H.
  destruct (match_fields_app _ _ _ _ H) as [caps1 [caps2 [s2 [-> [Hn H2]]]]].
  destruct s2; [|discriminate]. injection H2 as <-. now rewrite app_nil_r.
Qed.

Lemma named_of_app a b : named_of (a ++ b) = named_of a ++ named_of b.
Proof.
  induction a as [|[t|n t] a IH]; cbn [app named_of]; [reflexivity | exact IH|].
  now rewrite IH.
Qed.

Lemma named_get_absent n caps rest :
  has_name n (map cap_name caps) = false ->
  named_get n (named_of caps ++ rest) = named_get n rest.
Proof.
  induction caps as [|[t|k t] caps IH]; intros H; [reflexivity | exact (IH H)|].
  cbn [map cap_name has_name existsb] in H. apply orb_false_iff in H.
  destruct H as [Hk H]. cbn [named_of app named_get]. rewrite Hk. exact (IH H).
Qed.

(** *** Two non-greedy fields in a row *)

Lemma lazy_any_none_acc k name name' acc acc' s :
  lazy_any k name acc s = None -> lazy_any k name' acc' s = None.
Proof.
  revert acc acc'. induction s as [|c s IH]; intros acc acc' H; [reflexivity|].
  cbn [lazy_any] in *. destruct (k s); [discriminate|]. exact (IH _ _ H).
Qed.

(** When a non-greedy field is followed by another one, it takes one
    character: where the pair can match at all, the second field takes
    the rest. *)
Lemma match_fields_any_any name fs s caps :
  match_fields (Any (Some name) :: Any None :: fs) s = Some caps ->
  exists c caps', caps = Named name [c] :: caps'.
Proof.
  rewrite match_fields_any. intros H.
  assert (forall t, match_fields (Any None :: fs) t
                    = lazy_any (match_fields fs) None [] t) as E
    by (intros t; apply match_fields_any).
  destruct s as [|c s]; [discriminate|]. cbn [lazy_any] in H.
  rewrite E in H.
  destruct (lazy_any (match_fields fs) None [] s) as [caps'|] eqn:Es.
  - injection H as <-. now exists c, caps'.
  - exfalso.
    assert (lazy_any (match_fields (Any None :: fs)) (Some name) [c] s = None) as N.
    { clear H. revert Es. generalize [c]. induction s as [|d s IH]; intros acc Es;
        [reflexivity|].
      assert (lazy_any (match_fields fs) None [] s = None) as Hs.
      { cbn [lazy_any] in Es. destruct (match_fields fs s); [discriminate|].
        exact (lazy_any_none_acc _ _ _ _ _ _ Es). }
      cbn [lazy_any]. rewrite E, Hs. now apply IH. }
    congruence.
Qed.

Lemma strip_terminating_semicolon_fix s :
  head_kept isspace s -> last_kept isspace s ->
  endswith_char s SEMICOLON = false ->
  strip_terminating_semicolon s = s.
Proof.
  intros Hh Hl Hc. unfold strip_terminating_semicolon.
  rewrite (strip_fix s Hh Hl).
  rewrite (rstrip_by_fix _ _ (endswith_char_last_kept _ _ Hc)).
  now apply strip_fix.
Qed.

Lemma strip_terminating_semicolon_length s :
  length (strip_terminating_semicolon s) <= length s.
Proof.
  unfold strip_terminating_semicolon.
  pose proof (strip_length (rstrip_by (is_char SEMICOLON) (strip s))).
  pose proof (rstrip_by_length (is_char SEMICOLON) (strip s)).
  pose proof (strip_length s). lia.
Qed.

(** ** The first template that matches *)

Lemma try_templates_some never parse_fn ts sql v :
  try_templates never parse_fn ts sql = Some v ->
  exists t r, In t ts /\ parse_fn t sql = Some r
              /\ v = view_of_match never r.
Proof.
  induction ts as [|t ts IH]; intros H; [discriminate|].
  cbn [try_templates] in H. destruct (parse_fn t sql) as [r|] eqn:E.
  - injection H as <-. exists t, r. split; [now left | now split].
  - destruct (IH H) as [t' [r [Hin Hr]]]. exists t', r. split; [now right | exact Hr].
Qed.

Lemma from_sql_with_some never parse_fn sql v :
  from_sql_with never parse_fn sql = inr v ->
  exists t r, In t templates
              /\ parse_fn t (strip_terminating_semicolon sql) = Some r
              /\ v = view_of_match never r.
Proof.
  unfold from_sql_with.
  destruct (try_templates never parse_fn templates _) as [v'|] eqn:E;
    [|discriminate].
  intros H. injection H as <-. now apply try_templates_some in E.
Qed.

Lemma parse_some t s r :
  parse t s = Some r ->
  exists caps, match_fields (compile t) s = Some caps
               /\ r = mkResult (fixed_of caps) (named_of caps).
Proof.
  unfold parse. destruct (match_fields (compile t) s) as [caps|]; [|discriminate].
  intros H. injection H as <-. now exists caps.
Qed.

(** A name that is no field of the template is not in the result. *)
Lemma parse_name_absent t s r n :
  has_name n (field_names (compile t)) = false ->
  parse t s = Some r -> named_get n (named r) = None.
Proof.
  intros Hn H. apply parse_some in H. destruct H as [caps [H ->]].
  apply match_fields_names in H. cbn [named].
  rewrite <- (app_nil_r (named_of caps)).
  rewrite named_get_absent; [reflexivity | now rewrite H].
Qed.

(** Where the field [definition] is followed by an empty field, it
    holds one character. *)
Lemma parse_definition_char t s r n :
  compile t = firstn n (compile t)
                ++ Any (Some ("definition" : str)) :: Any None
                     :: skipn (n + 2) (compile t) ->
  has_name "definition" (field_names (firstn n (compile t))) = false ->
  parse t s = Some r ->
  exists c, named_get "definition" (named r) = Some [c].
Proof.
  intros Hc Hn H. apply parse_some in H. destruct H as [caps [H ->]].
  rewrite Hc in H. apply match_fields_app in H.
  destruct H as [caps1 [caps2 [s2 [-> [Hn1 H2]]]]].
  apply match_fields_any_any in H2. destruct H2 as [c [caps' ->]].
  exists c. cbn [named]. rewrite named_of_app.
  rewrite named_get_absent by (now rewrite Hn1).
  reflexivity.
Qed.

Lemma templates_no_data t :
  In t templates ->
  has_name "no_data" (field_names (compile t)) = false
  \/ exists n,
       compile t = firstn n (compile t)
                     ++ Any (Some ("definition" : str)) :: Any None
                          :: skipn (n + 2) (compile t)
       /\ has_name "definition" (field_names (firstn n (compile t))) = false.
Proof.
  unfold templates. cbn [In]. intros H.
  destruct H as [<-|[<-|[<-|[<-|[<-|[<-|[]]]]]]].
  - left. vm_compute. reflexivity.
  - right. exists 12. split; vm_compute; reflexivity.
  - left. vm_compute. reflexivity.
  - left. vm_compute. reflexivity.
  - right. exists 10. split; vm_compute; reflexivity.
  - left. vm_compute. reflexivity.
Qed.

Lemma from_sql_unfold never sql :
  from_sql_with never parse sql = from_sql never sql.
Proof. exact (eq_refl (from_sql_with never parse sql)). Qed.

(** X17: a view that [from_sql] reads as created without data holds at
    most one character of definition: in the two templates that capture
    [no_data] the field [definition] is followed by an empty field, both
    are non-greedy, so [definition] takes one character and the empty
    field the rest. *)
Theorem from_sql_no_data_definition (never : bool) (sql : str) v :
  from_sql never sql = inr v -> with_data v = false ->
  length (definition v) <= 1.
Proof.
  intros H Hw. rewrite <- from_sql_unfold in H.
  destruct (from_sql_with_some never parse sql v H) as [t [r [Hin [Hp ->]]]].
  destruct (templates_no_data t Hin) as [Hn|[n [Hc Hn]]].
  - exfalso. pose proof (parse_name_absent _ _ _ _ Hn Hp) as E.
    unfold view_of_match, init, result_contains in Hw. cbn [with_data] in Hw.
    rewrite E in Hw. discriminate.
  - destruct (parse_definition_char _ _ _ _ Hc Hn Hp) as [c E].
    unfold view_of_match, init. cbn [definition]. rewrite E.
    apply (strip_terminating_semicolon_length [c]).
Qed.

Lemma from_sql_no_data_definition_witness :
  length (definition (mkView "s" "v" "s" false true)) <= 1.
Proof.
  apply (from_sql_no_data_definition false NO_DATA_SQL
           (mkView "s" "v" "s" false true)); vm_compute; reflexivity.
Defined.

(** ** Texts that are no CREATE statement *)

Lemma drop_prefix_ci_lower l s rest :
  drop_prefix_ci l s = Some rest -> lower (firstn (length l) s) = lower l.
Proof.
  revert s. induction l as [|a l IH]; intros s H; [reflexivity|].
  destruct s as [|c s]; [discriminate|]. cbn [drop_prefix_ci] in H.
  destruct (Ascii.eqb (lower_char a) (lower_char c)) eqn:E; [|discriminate].
  apply Ascii.eqb_eq in E. cbn [length firstn lower map].
  rewrite <- E. f_equal. exact (IH _ H).
Qed.

Lemma templates_start_with_create t :
  In t templates -> compile t = Lit ("create" : str) :: tl (compile t).
Proof.
  unfold templates. cbn [In]. intros H.
  destruct H as [<-|[<-|[<-|[<-|[<-|[<-|[]]]]]]]; vm_compute; reflexivity.
Qed.

Lemma parse_requires_create t s :
  In t templates ->
  str_eqb (lower (firstn 6 s)) "create" = false -> parse t s = None.
Proof.
  intros Hin Hs. unfold parse. rewrite (templates_start_with_create t Hin).
  cbn [match_fields].
  destruct (drop_prefix_ci "create" s) as [rest|] eqn:E; [|reflexivity].
  apply drop_prefix_ci_lower in E. apply str_eqb_neq in Hs.
  exfalso. apply Hs. exact E.
Qed.

Lemma from_sql_no_match never parse_fn sql :
  (forall t, In t templates ->
             parse_fn t (strip_terminating_semicolon sql) = None) ->
  from_sql_with never parse_fn sql
  = inl (SQLParseFailure
           ("Failed to parse SQL into PGView " ++ TRIPLE_QUOTE
              ++ strip_terminating_semicolon sql ++ TRIPLE_QUOTE)).
Proof.
  intros H. unfold from_sql_with.
  now rewrite (try_templates_none parse_fn never templates _ H).
Qed.

(** X18: [from_sql] raises [SQLParseFailure] for every text that, once
    [strip_terminating_semicolon] has been applied, does not start with
    the word create in upper or lower case. *)
Theorem from_sql_requires_create (never : bool) (sql : str) :
  str_eqb (lower (firstn 6 (strip_terminating_semicolon sql))) "create" = false ->
  from_sql never sql
  = inl (SQLParseFailure
           ("Failed to parse SQL into PGView " ++ TRIPLE_QUOTE
              ++ strip_terminating_semicolon sql ++ TRIPLE_QUOTE)).
Proof.
  intros H. rewrite <- from_sql_unfold.
  apply from_sql_no_match. intros t Ht. now apply parse_requires_create.
Qed.

Lemma from_sql_requires_create_witness :
  from_sql false "  select 1 as create_materialized_view;"
  = inl (SQLParseFailure
           ("Failed to parse SQL into PGView " ++ TRIPLE_QUOTE
              ++ strip_terminating_semicolon
                   "  select 1 as create_materialized_view;"
              ++ TRIPLE_QUOTE)).
Proof.
  apply (from_sql_requires_create false
           "  select 1 as create_materialized_view;").
  reflexivity.
Defined.

(** ** Where the characters of a result come from *)

Lemma join_incl sep parts a :
  In a (join sep parts) -> In a sep \/ exists p, In p parts /\ In a p.
Proof.
  induction parts as [|p parts IH]; intros H; [destruct H|].
  destruct parts as [|q parts].
  - right. exists p. split; [now left | exact H].
  - change (join sep (p :: q :: parts)) with (p ++ sep ++ join sep (q :: parts)) in H.
    apply in_app_or in H. destruct H as [H|H].
    + right. exists p. split; [now left | exact H].
    + apply in_app_or in H. destruct H as [H|H]; [now left|].
      destruct (IH H) as [Hs|[p' [Hp Ha]]]; [now left|].
      right. exists p'. split; [now right | exact Ha].
Qed.

Lemma split_ws_from_incl cur s w a :
  In w (split_ws_from cur s) -> In a w -> In a cur \/ In a s.
Proof.
  revert cur. induction s as [|c s IH]; intros cur Hw Ha.
  - destruct cur as [|b cur]; [destruct Hw|].
    destruct Hw as [<-|[]]. left. now apply in_rev.
  - cbn [split_ws_from] in Hw. destruct (isspace c).
    + destruct cur as [|b cur].
      * destruct (IH _ Hw Ha) as [[]|H]. right. now right.
      * destruct Hw as [<-|Hw]; [left; now apply in_rev|].
        destruct (IH _ Hw Ha) as [[]|H]. right. now right.
    + destruct (IH _ Hw Ha) as [[<-|H]|H].
      * right. now left.
      * now left.
      * right. now right.
Qed.

Lemma normalize_whitespace_incl text a :
  In a (normalize_whitespace text) -> a = SPACE \/ In a text.
Proof.
  unfold normalize_whitespace. intros H. apply strip_incl in H.
  apply join_incl in H. destruct H as [[<-|[]]|[w [Hw Ha]]]; [now left|].
  right. destruct (split_ws_from_incl _ _ _ _ Hw Ha) as [[]|H]. exact H.
Qed.

Lemma str_replace_char_erase c s :
  str_replace s [c] [] = filter (fun a => negb (Ascii.eqb c a)) s.
Proof.
  induction s as [|a s IH]; [reflexivity|]. cbn [filter].
  destruct (Ascii.eqb c a) eqn:E; cbn [negb].
  - apply Ascii.eqb_eq in E. subst a.
    change (c :: s) with ([c] ++ s). rewrite str_replace_hit. exact IH.
  - rewrite str_replace_miss; [now rewrite IH|].
    cbn [startswith]. now rewrite E.
Qed.

Lemma hd_split_from_char c s : forall cur,
  ~ In c cur -> ~ In c (hd [] (split_from [c] 0 cur s)).
Proof.
  induction s as [|a s IH]; intros cur H.
  - cbn [split_from hd]. intros Hin. apply H. now apply in_rev.
  - cbn [split_from startswith]. destruct (Ascii.eqb c a) eqn:E; cbn [andb].
    + cbn [hd]. intros Hin. apply H. now apply in_rev.
    + apply IH. intros [<-|Hin]; [|now apply H].
      now rewrite Ascii.eqb_refl in E.
Qed.

(** X19: the signature of a view returned by [from_sql] holds no opening
    parenthesis (a column list is cut off), no double quote, and neither
    starts nor ends with whitespace, whatever the matcher returned. *)
Theorem from_sql_signature_without_columns
  (never : bool) (parse_fn : str -> str -> option Result) (sql : str) v :
  from_sql_with never parse_fn sql = inr v ->
  ~ In LPAREN (signature v) /\ ~ In DQUOTE (signature v)
  /\ head_kept isspace (signature v) /\ last_kept isspace (signature v).
Proof.
  intros H. apply from_sql_with_some in H. destruct H as [t [r [_ [_ ->]]]].
  unfold view_of_match, init. cbn [signature].
  set (raw := match named_get "signature" (named r) with
              | Some t => t | None => [] end).
  set (cut := str_replace (hd [] (split raw [LPAREN])) [DQUOTE] []).
  assert (~ In DQUOTE cut) as Hq.
  { unfold cut. rewrite str_replace_char_erase. intros Hin.
    apply filter_In in Hin. destruct Hin as [_ Hin].
    now rewrite Ascii.eqb_refl in Hin. }
  assert (~ In LPAREN cut) as Hp.
  { unfold cut. rewrite str_replace_char_erase. intros Hin.
    apply filter_In in Hin. destruct Hin as [Hin _].
    revert Hin. apply hd_split_from_char. intros []. }
  assert (coerce_to_unquoted (normalize_whitespace cut) = normalize_whitespace cut)
    as E.
  { rewrite coerce_to_unquoted_filter. apply filter_not_in. intros Hin.
    apply normalize_whitespace_incl in Hin. destruct Hin as [Hin|Hin];
      [discriminate | contradiction]. }
  rewrite E. split; [|split].
  - intros Hin. apply normalize_whitespace_incl in Hin.
    destruct Hin as [Hin|Hin]; [discriminate | contradiction].
  - intros Hin. apply normalize_whitespace_incl in Hin.
    destruct Hin as [Hin|Hin]; [discriminate | contradiction].
  - apply strip_trimmed.
Qed.

Lemma from_sql_signature_without_columns_witness :
  let v := mkView "s" "my view" "select 1" true true in
  ~ In LPAREN (signature v) /\ ~ In DQUOTE (signature v)
  /\ head_kept isspace (signature v) /\ last_kept isspace (signature v).
Proof.
  apply (from_sql_signature_without_columns false parse
           ("create materialized view s." ++ [DQUOTE] ++ "my  view" ++ [DQUOTE]
              ++ " (a, b) as select 1;")
           (mkView "s" "my view" "select 1" true true)).
  vm_compute. reflexivity.
Defined.

(** X20: with [NEVER_INCLUDE_SCHEMA] set, every view returned by
    [from_sql] has the schema [public] and no schema prefix, whatever
    schema the text names. *)
Theorem from_sql_never_include_schema
  (parse_fn : str -> str -> option Result) (sql : str) v :
  from_sql_with true parse_fn sql = inr v ->
  schema v = "public" /\ include_schema_prefix v = false.
Proof.
  intros H. apply from_sql_with_some in H. destruct H as [t [r [_ [_ ->]]]].
  split; reflexivity.
Qed.

Lemma from_sql_never_include_schema_witness :
  let v := mkView "public" "v" "select 1" true false in
  schema v = "public" /\ include_schema_prefix v = false.
Proof.
  apply (from_sql_never_include_schema parse
           "create materialized view app.v as select 1"
           (mkView "public" "v" "select 1" true false)).
  vm_compute. reflexivity.
Defined.

(** ** The two renderings of the CREATE statement *)

Lemma rstrip_by_snoc p (s : str) a :
  p a = true -> rstrip_by p (s ++ [a]) = rstrip_by p s.
Proof.
  intros H. unfold rstrip_by. rewrite rev_app_distr.
  cbn [rev app dropwhile]. now rewrite H.
Qed.

Lemma strip_terminating_semicolon_data c y :
  isspace c = false ->
  strip_terminating_semicolon (c :: y ++ " DATA;") = c :: y ++ " DATA"
  /\ strip_terminating_semicolon (c :: y ++ " DATA") = c :: y ++ " DATA".
Proof.
  intros Hc.
  assert (last_kept isspace (c :: y ++ " DATA")) as Hl.
  { unfold last_kept. cbn [rev]. rewrite rev_app_distr. reflexivity. }
  assert (endswith_char (c :: y ++ " DATA") SEMICOLON = false) as He.
  { unfold endswith_char. cbn [rev]. rewrite rev_app_distr. reflexivity. }
  split; [|now apply strip_terminating_semicolon_fix].
  unfold strip_terminating_semicolon.
  assert (strip (c :: y ++ " DATA;") = c :: y ++ " DATA;") as E1.
  { apply strip_fix; [exact Hc|].
    unfold last_kept. cbn [rev]. rewrite rev_app_distr. reflexivity. }
  rewrite E1.
  assert (rstrip_by (is_char SEMICOLON) (c :: y ++ " DATA;") = c :: y ++ " DATA")
    as E2.
  { change (c :: y ++ " DATA;") with ((c :: y) ++ " DATA;").
    replace ((c :: y) ++ " DATA;") with (((c :: y) ++ " DATA") ++ [SEMICOLON])
      by (now rewrite <- app_assoc).
    rewrite rstrip_by_snoc by apply Ascii.eqb_refl.
    apply rstrip_by_fix. now apply endswith_char_last_kept. }
  rewrite E2. now apply strip_fix.
Qed.

Section RenderingProperties.

Variable literal_schema_prefix : PGMaterializedView -> str.

(** X21: [from_sql] gives the same outcome on the statement of
    [to_sql_statement_create] and on the second statement yielded by
    [to_sql_statement_create_or_replace]: they differ in the final
    semicolon, which [from_sql] strips first. *)
Theorem create_renderings_read_alike
  (never : bool) (parse_fn : str -> str -> option Result)
  (self : PGMaterializedView) :
  from_sql_with never parse_fn
    (to_sql_statement_create literal_schema_prefix self)
  = from_sql_with never parse_fn
      (nth 1 (to_sql_statement_create_or_replace literal_schema_prefix self) []).
Proof.
  unfold to_sql_statement_create, to_sql_statement_create_or_replace.
  cbn [nth].
  set (middle := "REATE MATERIALIZED VIEW " ++ literal_schema_prefix self
                   ++ [DQUOTE] ++ signature self ++ [DQUOTE] ++ " AS "
                   ++ rstrip_by (is_char SEMICOLON) (rstrip (definition self))
                   ++ " WITH " ++ (if negb (with_data self) then "NO" else "")).
  destruct (strip_terminating_semicolon_data "C" middle eq_refl) as [E1 E2].
  assert (forall tail : str,
            "CREATE MATERIALIZED VIEW " ++ literal_schema_prefix self
              ++ [DQUOTE] ++ signature self ++ [DQUOTE] ++ " AS "
              ++ rstrip_by (is_char SEMICOLON) (rstrip (definition self))
              ++ " WITH " ++ (if negb (with_data self) then "NO" else "") ++ tail
            = "C"%char :: middle ++ tail) as E.
  { intros tail. unfold middle. rewrite <- !app_assoc. reflexivity. }
  rewrite !E. unfold from_sql_with. now rewrite E1, E2.
Qed.

End RenderingProperties.
